(** * zinc-sdk-go: canonical serialization of a Transfer transaction

    A shallow embedding of [main.go] (package [main]) and the statements
    of its specification that can be settled on it.

    Conventions of the embedding.
    - A Go [string] is a Rocq [string]: a sequence of 8-bit characters,
      [len] is [String.length] and [s[i]] is [String.get].
    - A Go [[]byte] is a [list byte].
    - [uint64], [int64] and [int] values are integers of [Z]; the
      conversions [uint64(x)] and [byte(x)] write their wrap-around out.
    - A Go function returning [([]byte, error)] returns a [result]: every
      error path of the source is [return nil, err], which is [Err err];
      a run-time panic is the third outcome, [Panic]. *)

From Stdlib Require Import ZArith List Bool Lia.
From Stdlib Require Import Ascii String.
From Stdlib Require Import Strings.Byte.
From Stdlib Require Import DecimalString.
From Equations Require Import Equations.
Import ListNotations.

Local Open Scope string_scope.
Local Open Scope list_scope.
Local Open Scope Z_scope.

(** ** Errors, panics and results *)

(** The inner error of a [*strconv.NumError]: [strconv.ErrSyntax],
    [strconv.ErrRange], or the error of a bad base or bit size. *)
Inductive num_err : Type :=
| ErrSyntax
| ErrRange
| ErrBase (base : Z)        (* "invalid base " + base *)
| ErrBitSize (bitSize : Z). (* "invalid bit size " + bitSize *)

(** The two kinds of [error] value the program builds: the message of a
    [fmt.Errorf] call, and the [*strconv.NumError] of [strconv.ParseInt]. *)
Inductive error : Type :=
| Errorf (msg : string)
| NumError (Func Num : string) (Err : num_err).

(** Run-time panics of the Go runtime that the program can reach. *)
Inductive panic : Type :=
| IndexOutOfRange (index len : Z)
| SliceBoundsOutOfRange (bound cap : Z).

Inductive result (A : Type) : Type :=
| Ok (a : A)
| Err (e : error)
| Panic (p : panic).

Arguments Ok {A} a.
Arguments Err {A} e.
Arguments Panic {A} p.

Definition bind {A B : Type} (r : result A) (k : A -> result B) : result B :=
  match r with
  | Ok a => k a
  | Err e => Err e
  | Panic p => Panic p
  end.

Notation "x <- r ;; k" := (bind r (fun x => k))
  (at level 61, r at next level, right associativity).

(** ** Machine integers and bytes *)

Definition is_uint64 (x : Z) : Prop := 0 <= x < 2 ^ 64.
Definition is_int64 (x : Z) : Prop := - 2 ^ 63 <= x < 2 ^ 63.

(** The conversion [uint64(x)] of a signed value. *)
Definition uint64 (x : Z) : Z := x mod 2 ^ 64.

(** The conversion [byte(x)] of an integer: its low eight bits. *)
Definition byte_of_Z (x : Z) : byte :=
  match Byte.of_N (Z.to_N (x mod 256)) with
  | Some b => b
  | None => x00
  end.

Definition Z_of_byte (b : byte) : Z := Z.of_N (Byte.to_N b).

(** The numeric value of a character of a string. *)
Definition code (c : ascii) : Z := Z.of_N (N_of_ascii c).

Definition ascii_of_Z (x : Z) : ascii := ascii_of_N (Z.to_N (x mod 256)).

(** [make([]byte, len, cap)]: [len] zero bytes; the capacity [cap] (which is
    [len] when it is left out) does not show in the value. *)
Definition make (len cap : nat) : list byte := repeat x00 len.

(** ** IntegerCodec *)

(** [binary.BigEndian.PutUint64(b, v)]: panics on a buffer shorter than
    eight bytes ([_ = b[7]]), else overwrites [b[0..7]]. *)
Definition PutUint64 (b : list byte) (v : Z) : result (list byte) :=
  if (Z.of_nat (List.length b) <? 8) then
    Panic (IndexOutOfRange 7 (Z.of_nat (List.length b)))
  else
    Ok ([ byte_of_Z (Z.shiftr v 56); byte_of_Z (Z.shiftr v 48);
          byte_of_Z (Z.shiftr v 40); byte_of_Z (Z.shiftr v 32);
          byte_of_Z (Z.shiftr v 24); byte_of_Z (Z.shiftr v 16);
          byte_of_Z (Z.shiftr v 8); byte_of_Z v ] ++ skipn 8 b).

(** The slice expression [b[lo:hi]] on a slice whose capacity is its length. *)
Definition slice (b : list byte) (lo hi : Z) : result (list byte) :=
  if (hi <? 0) || (Z.of_nat (List.length b) <? hi) then
    Panic (SliceBoundsOutOfRange hi (Z.of_nat (List.length b)))
  else if (lo <? 0) || (hi <? lo) then
    Panic (SliceBoundsOutOfRange lo hi)
  else
    Ok (firstn (Z.to_nat (hi - lo)) (skipn (Z.to_nat lo) b)).

Definition Uint2bytes (i : Z) (size : Z) : result (list byte) :=
  bytes <- PutUint64 (make 8 8) i ;;
  slice bytes (8 - size) 8.

Definition MAX_NUMBER_OF_ACCOUNTS : Z := 16777216.
Definition MAX_NUMBER_OF_TOKENS : Z := 128.

Definition serializeAccountId (id : Z) : result (list byte) :=
  if MAX_NUMBER_OF_ACCOUNTS <=? id then
    Err (Errorf "AccountId is too big")
  else
    Uint2bytes id 4.

Definition serializeTokenId (tokenId : Z) : result (list byte) :=
  if MAX_NUMBER_OF_TOKENS <=? tokenId then
    Err (Errorf "TokenId is too big")
  else
    Uint2bytes tokenId 2.

Definition serializeNonce (nonce : Z) : result (list byte) :=
  Uint2bytes nonce 4.

(** ** TimestampCodec *)

Definition serializeTimestamp (ts : Z) : result (list byte) :=
  if ts <? 0 then
    Err (Errorf "Negative timestamp")
  else
    lo <- Uint2bytes (uint64 ts) 4 ;;
    Ok (make 4 4 ++ lo).

(** ** [strconv.ParseInt]

    The program decodes each pair of address characters with
    [strconv.ParseInt(s, 0, 64)] of the Go standard library.  The library is
    not part of the repository; the definitions below follow its
    implementation ([strconv/atoi.go], go1.13 and later, on a 64-bit
    platform: the program needs go1.16 for [os.ReadFile]). *)
Module strconv.

(** [lower(c)]: [c | ('x' - 'X')]. *)
Definition lower (c : Z) : Z := Z.lor c 32.

Definition syntaxError (fn str : string) : error := NumError fn str ErrSyntax.
Definition rangeError (fn str : string) : error := NumError fn str ErrRange.
Definition baseError (fn str : string) (base : Z) : error :=
  NumError fn str (ErrBase base).
Definition bitSizeError (fn str : string) (bitSize : Z) : error :=
  NumError fn str (ErrBitSize bitSize).

Definition IntSize : Z := 64.
Definition maxUint64 : Z := 2 ^ 64 - 1.

Inductive saw_t : Type :=
| SawStart        (* '^' *)
| SawDigit        (* '0' *)
| SawUnderscore   (* '_' *)
| SawOther.       (* '!' *)

Definition is_SawDigit (s : saw_t) : bool :=
  match s with SawDigit => true | _ => false end.
Definition is_SawUnderscore (s : saw_t) : bool :=
  match s with SawUnderscore => true | _ => false end.

(** The loop "number proper" of [underscoreOK]. *)
Fixpoint underscoreOK_loop (hex : bool) (s : string) (saw : saw_t) : bool :=
  match s with
  | EmptyString => negb (is_SawUnderscore saw)
  | String a s' =>
      let c := code a in
      if ((48 <=? c) && (c <=? 57))
         || (hex && (97 <=? lower c) && (lower c <=? 102)) then
        underscoreOK_loop hex s' SawDigit
      else if c =? 95 then
        if negb (is_SawDigit saw) then false
        else underscoreOK_loop hex s' SawUnderscore
      else if is_SawUnderscore saw then false
      else underscoreOK_loop hex s' SawOther
  end.

Definition underscoreOK (s : string) : bool :=
  (* optional sign *)
  let s :=
    match s with
    | String a s' => if (code a =? 45) || (code a =? 43) then s' else s
    | EmptyString => s
    end in
  (* optional base prefix *)
  match s with
  | String a0 (String a1 s') =>
      if (code a0 =? 48)
         && ((lower (code a1) =? 98) || (lower (code a1) =? 111)
             || (lower (code a1) =? 120)) then
        underscoreOK_loop (lower (code a1) =? 120) s' SawDigit
      else underscoreOK_loop false s SawStart
  | _ => underscoreOK_loop false s SawStart
  end.

(** The value of a digit character, [None] in the [default] case. *)
Definition digit_val (c : Z) : option Z :=
  if (48 <=? c) && (c <=? 57) then Some (c - 48)
  else if (97 <=? lower c) && (lower c <=? 122) then Some (lower c - 97 + 10)
  else None.

(** The digit loop of [ParseUint]: [inl] when the loop runs to its end,
    [inr] for a [return] from inside it. *)
Fixpoint ParseUint_loop (base : Z) (base0 : bool) (cutoff maxVal : Z)
    (s : string) (n : Z) (underscores : bool)
  : (Z * bool) + (Z * num_err) :=
  match s with
  | EmptyString => inl (n, underscores)
  | String a s' =>
      let c := code a in
      if (c =? 95) && base0 then
        ParseUint_loop base base0 cutoff maxVal s' n true
      else
        match digit_val c with
        | None => inr (0, ErrSyntax)
        | Some d =>
            if base mod 256 <=? d then inr (0, ErrSyntax)
            else if cutoff <=? n then inr (maxVal, ErrRange)
            else
              let n := (n * base) mod 2 ^ 64 in
              let n1 := (n + d) mod 2 ^ 64 in
              if (n1 <? n) || (maxVal <? n1) then inr (maxVal, ErrRange)
              else ParseUint_loop base base0 cutoff maxVal s' n1 underscores
        end
  end.

(** The base and the digits left once the prefix of a base-0 literal
    is taken off. *)
Definition base_prefix (s : string) : Z * string :=
  match s with
  | String a0 rest =>
      if code a0 =? 48 then
        match rest with
        | String a1 rest' =>
            let long := (3 <=? Z.of_nat (String.length s)) in
            if long && (lower (code a1) =? 98) then (2, rest')
            else if long && (lower (code a1) =? 111) then (8, rest')
            else if long && (lower (code a1) =? 120) then (16, rest')
            else (8, rest)
        | EmptyString => (8, rest)
        end
      else (10, s)
  | EmptyString => (10, s)
  end.

Definition ParseUint (s : string) (base bitSize : Z) : Z * option error :=
  let fnParseUint := "ParseUint" in
  match s with
  | EmptyString => (0, Some (syntaxError fnParseUint s))
  | _ =>
      let base0 := base =? 0 in
      let s0 := s in
      if negb (((2 <=? base) && (base <=? 36)) || base0) then
        (0, Some (baseError fnParseUint s0 base))
      else
        let '(base, s) := if base0 then base_prefix s else (base, s) in
        if (bitSize <? 0) || (64 <? bitSize) then
          (0, Some (bitSizeError fnParseUint s0 bitSize))
        else
          let bitSize := if bitSize =? 0 then IntSize else bitSize in
          let cutoff := maxUint64 / base + 1 in
          let maxVal := (Z.shiftl 1 bitSize mod 2 ^ 64 - 1) mod 2 ^ 64 in
          match ParseUint_loop base base0 cutoff maxVal s 0 false with
          | inr (v, e) => (v, Some (NumError fnParseUint s0 e))
          | inl (n, underscores) =>
              if underscores && negb (underscoreOK s0) then
                (0, Some (syntaxError fnParseUint s0))
              else (n, None)
          end
  end.

Definition is_ErrRange (e : error) : bool :=
  match e with
  | NumError _ _ ErrRange => true
  | _ => false
  end.

Definition ParseInt (s : string) (base bitSize : Z) : Z * option error :=
  let fnParseInt := "ParseInt" in
  match s with
  | EmptyString => (0, Some (syntaxError fnParseInt s))
  | String a rest =>
      let s0 := s in
      (* pick off the leading sign *)
      let '(neg, s) :=
        if code a =? 43 then (false, rest)
        else if code a =? 45 then (true, rest)
        else (false, s) in
      let '(un, err) := ParseUint s base bitSize in
      match err with
      | Some (NumError _ _ e) =>
          if negb (is_ErrRange (NumError fnParseInt s0 e)) then
            (0, Some (NumError fnParseInt s0 e))
          else
            (* a range error of [ParseUint] is reported again below *)
            let bitSize := if bitSize =? 0 then IntSize else bitSize in
            let cutoff := Z.shiftl 1 (bitSize - 1) in
            if negb neg && (cutoff <=? un) then
              (cutoff - 1, Some (rangeError fnParseInt s0))
            else if neg && (cutoff <? un) then
              (- cutoff, Some (rangeError fnParseInt s0))
            else ((if neg then - un else un), None)
      | Some (Errorf m) => (0, Some (Errorf m))
      | None =>
          let bitSize := if bitSize =? 0 then IntSize else bitSize in
          let cutoff := Z.shiftl 1 (bitSize - 1) in
          if negb neg && (cutoff <=? un) then
            (cutoff - 1, Some (rangeError fnParseInt s0))
          else if neg && (cutoff <? un) then
            (- cutoff, Some (rangeError fnParseInt s0))
          else ((if neg then - un else un), None)
      end
  end.

End strconv.

(** ** AddressCodec *)

(** [len(s)] as an [int]. *)
Definition len (s : string) : Z := Z.of_nat (String.length s).

(** The index expression [s[i]] on a string. *)
Definition str_at (s : string) (i : nat) : result ascii :=
  match String.get i s with
  | Some c => Ok c
  | None => Panic (IndexOutOfRange (Z.of_nat i) (len s))
  end.

(** The slice expression [s[n:]] on a string. *)
Definition slice_from (s : string) (n : nat) : result string :=
  if (String.length s <? n)%nat then
    Panic (SliceBoundsOutOfRange (Z.of_nat n) (len s))
  else
    Ok (substring n (String.length s - n) s).

(** [strings.HasPrefix(s, prefix)]. *)
Definition HasPrefix (s prefix : string) : bool := String.prefix prefix s.

(** The conversion [string(b)] of a byte [b]: the UTF-8 encoding of the
    code point [b], two bytes long from 0x80 on. *)
Definition string_of_rune (c : ascii) : string :=
  let r := code c in
  if r <? 128 then String c EmptyString
  else String (ascii_of_Z (Z.lor 192 (Z.shiftr r 6)))
         (String (ascii_of_Z (Z.lor 128 (Z.land r 63))) EmptyString).

Definition removeAddressPrefix (address : string) : result string :=
  if HasPrefix address "0x" then slice_from address 2
  else if HasPrefix address "sync:" then slice_from address 5
  else Err (Errorf
    "ETH address must start with '0x' and PubKeyHash must start with 'sync:'").

(** The body of the loop of [arrayifyAddress] at index [i]: the byte that
    is appended to [res]. *)
Definition arrayify_body (address : string) (i : nat) : result byte :=
  a0 <- str_at address i ;;
  a1 <- str_at address (i + 1) ;;
  let s := ("0x" ++ string_of_rune a0 ++ string_of_rune a1)%string in
  match strconv.ParseInt s 0 64 with
  | (val, Some err) => Err err
  | (val, None) => Ok (byte_of_Z val)
  end.

(** [for i := 0; i < len(address); i += 2 { ... }] started at [i] with the
    bytes [res] collected so far. *)
Equations? arrayify_loop (address : string) (i : nat) (res : list byte)
  : result (list byte) by wf (String.length address - i)%nat lt :=
  arrayify_loop address i res with lt_dec i (String.length address) => {
    | right _ => Ok res
    | left _ with arrayify_body address i => {
        | Ok b => arrayify_loop address (i + 2) (res ++ [b])
        | Err e => Err e
        | Panic p => Panic p } }.
Proof. lia. Qed.

Definition arrayifyAddress (address : string) : result (list byte) :=
  arrayify_loop address 0 [].

(** The decimal form that the verb [%d] prints. *)
Definition decimal (n : nat) : string := NilZero.string_of_uint (Nat.to_uint n).

Definition serializeAddress (address : string) : result (list byte) :=
  prefixless <- removeAddressPrefix address ;;
  bytes <- arrayifyAddress prefixless ;;
  if negb (List.length bytes =? 20)%nat then
    Err (Errorf ("Address must be 20 bytes long. len: "
                 ++ decimal (List.length bytes))%string)
  else
    Ok bytes.

(** ** AmountCodec *)

(** The conversion [[]byte(s)]. *)
Definition bytes_of_string (s : string) : list byte := list_byte_of_string s.

Definition serializeAmountPacked (amount : string) : result (list byte) :=
  Ok (bytes_of_string amount).

Definition serializeFeePacked (fee : string) : result (list byte) :=
  Ok (bytes_of_string fee).

(** ** TransferSerializer *)

Record Signature : Type := {
  PubKey : string;
  Signature_ : string
}.

Record Tx : Type := {
  Type_ : string;
  AccountId : Z;        (* uint64 *)
  From : string;
  To : string;
  Token : Z;            (* uint64 *)
  Amount : string;
  Fee : string;
  Nonce : Z;            (* uint64 *)
  Signature' : Signature;
  ValidFrom : Z;        (* time.Duration, an int64 *)
  ValidUntil : Z        (* time.Duration, an int64 *)
}.

Definition serializeTransfer (tx : Tx) : result (list byte) :=
  let type_ := make 0 5 in
  accountId <- serializeAccountId (AccountId tx) ;;
  from <- serializeAddress (From tx) ;;
  to <- serializeAddress (To tx) ;;
  token <- serializeTokenId (Token tx) ;;
  amount <- serializeAmountPacked (Amount tx) ;;
  fee <- serializeFeePacked (Fee tx) ;;
  nonce <- serializeNonce (Nonce tx) ;;
  validFrom <- serializeTimestamp (ValidFrom tx) ;;
  validUntil <- serializeTimestamp (ValidUntil tx) ;;
  let res := type_ ++ accountId in
  let res := res ++ from in
  let res := res ++ to in
  let res := res ++ token in
  let res := res ++ amount in
  let res := res ++ fee in
  let res := res ++ nonce in
  let res := res ++ validFrom in
  let res := res ++ validUntil in
  Ok res.

(** The transaction of the comment at the head of [main.go]. *)
Definition example_tx : Tx := {|
  Type_ := "Transfer";
  AccountId := 1;
  From := "0x36615cf349d7f6344891b1e7ca7c72883f5dc049";
  To := "0x1234567812345678123456781234567812345678";
  Token := 0;
  Amount := "0";
  Fee := "37500000000000";
  Nonce := 2;
  Signature' := {|
    PubKey := "07f86efb9bf58d5ebf23042406cb43e9363879ff79223be05b7feac1dbc58c86";
    Signature_ := "042c7356c3970c5ab620e1eaf0a9e39563edc9383072ac33a29398f11678b2a3acdc40ff05acd225b6a71962cfabfa6012fae8492106987bcd48135fefa09c02"
  |};
  ValidFrom := 0;
  ValidUntil := 0
|}.

(** ** Vocabulary of the specification

    The specification names the errors by kind; these are the error values
    of the source that it means. *)

Definition AccountIdOutOfRange : error := Errorf "AccountId is too big".
Definition TokenIdOutOfRange : error := Errorf "TokenId is too big".
Definition NegativeTimestamp : error := Errorf "Negative timestamp".

(** [InvalidAddressFormat]: a missing or unknown prefix, or a pair of
    characters that [strconv.ParseInt] refuses. *)
Definition InvalidAddressFormat (e : error) : Prop :=
  e = Errorf
        "ETH address must start with '0x' and PubKeyHash must start with 'sync:'"
  \/ exists num k, e = NumError "ParseInt" num k.

(** [InvalidAddressLength], reported with the observed length. *)
Definition InvalidAddressLength (e : error) : Prop :=
  exists n : nat,
    n <> 20%nat
    /\ e = Errorf ("Address must be 20 bytes long. len: " ++ decimal n)%string.

(** The number a byte string denotes when read big-endian. *)
Definition be_value (bs : list byte) : Z :=
  fold_left (fun acc b => acc * 256 + Z_of_byte b) bs 0.

(** Lowercase hexadecimal text of a byte string: what the specification
    calls [encode_as_hex], before the prefix is put in front. *)
Definition hex_digit (n : Z) : ascii :=
  if n <? 10 then ascii_of_Z (48 + n) else ascii_of_Z (87 + n).

Definition hex_of_byte (b : byte) : string :=
  String (hex_digit (Z_of_byte b / 16))
    (String (hex_digit (Z_of_byte b mod 16)) EmptyString).

Fixpoint hex_of_bytes (bs : list byte) : string :=
  match bs with
  | [] => EmptyString
  | b :: bs' => (hex_of_byte b ++ hex_of_bytes bs')%string
  end.

Definition encode_as_hex (addr : list byte) (prefix : string) : string :=
  (prefix ++ hex_of_bytes addr)%string.

(** What the specification asks of the serializer: the outcome of the
    first field, in order, that does not succeed, and the fields' bytes one
    behind the other when all succeed. *)
Fixpoint first_failure (rs : list (result (list byte))) : result (list byte) :=
  match rs with
  | [] => Ok []
  | Ok b :: rs' => bs <- first_failure rs' ;; Ok (b ++ bs)
  | Err e :: _ => Err e
  | Panic p :: _ => Panic p
  end.

(** The outcomes of the nine field codecs of a transaction, in the order
    in which [serializeTransfer] calls them. *)
Definition field_results (tx : Tx) : list (result (list byte)) :=
  [ serializeAccountId (AccountId tx);
    serializeAddress (From tx);
    serializeAddress (To tx);
    serializeTokenId (Token tx);
    serializeAmountPacked (Amount tx);
    serializeFeePacked (Fee tx);
    serializeNonce (Nonce tx);
    serializeTimestamp (ValidFrom tx);
    serializeTimestamp (ValidUntil tx) ].

(** The bytes [b[lo:hi]] of an output. *)
Definition segment (b : list byte) (lo hi : nat) : list byte :=
  firstn (hi - lo) (skipn lo b).

(** ** Sample data *)

(** The addresses of [example_tx], decoded by hand. *)
Definition example_from : list byte :=
  [x36; x61; x5c; xf3; x49; xd7; xf6; x34; x48; x91;
   xb1; xe7; xca; x7c; x72; x88; x3f; x5d; xc0; x49].

Definition example_to : list byte :=
  [x12; x34; x56; x78; x12; x34; x56; x78; x12; x34;
   x56; x78; x12; x34; x56; x78; x12; x34; x56; x78].

(** The bytes that [serializeTransfer] gives for [example_tx]: account id,
    the two addresses, token, the text of amount and of fee, nonce and the
    two time stamps. *)
Definition example_output : list byte :=
  [x00; x00; x00; x01] ++ example_from ++ example_to ++ [x00; x00]
  ++ bytes_of_string "0" ++ bytes_of_string "37500000000000"
  ++ [x00; x00; x00; x02]
  ++ [x00; x00; x00; x00; x00; x00; x00; x00]
  ++ [x00; x00; x00; x00; x00; x00; x00; x00].

(** [tx] with another amount. *)
Definition with_amount (tx : Tx) (amount : string) : Tx := {|
  Type_ := Type_ tx; AccountId := AccountId tx; From := From tx; To := To tx;
  Token := Token tx; Amount := amount; Fee := Fee tx; Nonce := Nonce tx;
  Signature' := Signature' tx;
  ValidFrom := ValidFrom tx; ValidUntil := ValidUntil tx |}.

(** [tx] with another sender and token. *)
Definition with_from_token (tx : Tx) (from : string) (token : Z) : Tx := {|
  Type_ := Type_ tx; AccountId := AccountId tx; From := from; To := To tx;
  Token := token; Amount := Amount tx; Fee := Fee tx; Nonce := Nonce tx;
  Signature' := Signature' tx;
  ValidFrom := ValidFrom tx; ValidUntil := ValidUntil tx |}.

(** ** Further vocabulary *)

(** The [n] low bytes of [i], most significant first. *)
Fixpoint be_bytes (n : nat) (i : Z) : list byte :=
  match n with
  | O => []
  | S n' => be_bytes n' (Z.shiftr i 8) ++ [byte_of_Z i]
  end.

(** The value of a hex digit, of either case. *)
Definition hex_val (c : ascii) : option Z :=
  let n := code c in
  if (48 <=? n) && (n <=? 57) then Some (n - 48)
  else if (97 <=? n) && (n <=? 102) then Some (n - 87)
  else if (65 <=? n) && (n <=? 70) then Some (n - 55)
  else None.

(** The value that a pair of characters is decoded to: two hex digits, or
    an underscore and a hex digit. *)
Definition pair_value (c1 c2 : ascii) : option Z :=
  match hex_val c2 with
  | None => None
  | Some l =>
      match hex_val c1 with
      | Some h => Some (16 * h + l)
      | None => if code c1 =? 95 then Some l else None
      end
  end.

(** Decoding by pairs, by recursion on the text; [total] is the length of
    the whole text. *)
Fixpoint decode_pairs (total : Z) (s : string) : result (list byte) :=
  match s with
  | EmptyString => Ok []
  | String c1 EmptyString => Panic (IndexOutOfRange total total)
  | String c1 (String c2 rest) =>
      match pair_value c1 c2 with
      | Some v => bs <- decode_pairs total rest ;; Ok (byte_of_Z v :: bs)
      | None =>
          Err (NumError "ParseInt"
                 ("0x" ++ string_of_rune c1 ++ string_of_rune c2)%string
                 ErrSyntax)
      end
  end.

(** The 256 characters. *)
Definition all_ascii : list ascii := map ascii_of_nat (seq 0 256).

(** Whether the loop body, on the pair [c1 c2], does what [pair_value] says. *)
Definition pair_checked (c1 c2 : ascii) : bool :=
  match arrayify_body (String c1 (String c2 EmptyString)) 0, pair_value c1 c2 with
  | Ok b, Some v => Byte.eqb b (byte_of_Z v)
  | Err (NumError f n ErrSyntax), None =>
      String.eqb f "ParseInt"
      && String.eqb n ("0x" ++ string_of_rune c1 ++ string_of_rune c2)%string
  | _, _ => false
  end.

(** Hex text with the case of each digit chosen by its position. *)
Definition hex_digit_case (upper : bool) (n : Z) : ascii :=
  if n <? 10 then ascii_of_Z (48 + n)
  else ascii_of_Z ((if upper then 55 else 87) + n).

Fixpoint hex_of_bytes_cased (upper : nat -> bool) (pos : nat) (bs : list byte)
  : string :=
  match bs with
  | [] => EmptyString
  | b :: bs' =>
      String (hex_digit_case (upper pos) (Z_of_byte b / 16))
        (String (hex_digit_case (upper (S pos)) (Z_of_byte b mod 16))
           (hex_of_bytes_cased upper (S (S pos)) bs'))
  end.

(** [tx] with another amount and fee. *)
Definition with_amount_fee (tx : Tx) (amount fee : string) : Tx := {|
  Type_ := Type_ tx; AccountId := AccountId tx; From := From tx; To := To tx;
  Token := Token tx; Amount := amount; Fee := fee; Nonce := Nonce tx;
  Signature' := Signature' tx;
  ValidFrom := ValidFrom tx; ValidUntil := ValidUntil tx |}.

(** Text in which every byte is an underscore and the hex digit of its
    low half. *)
Fixpoint underscored (bs : list byte) : string :=
  match bs with
  | [] => EmptyString
  | b :: bs' =>
      String "_" (String (hex_digit (Z_of_byte b mod 16)) (underscored bs'))
  end.

(** * Properties *)

(** Case analysis on every condition of the goal. *)
Ltac case_ifs :=
  repeat match goal with
         | |- context [if ?c then _ else _] => destruct c
         end.

(** ** Bytes and big-endian values *)

Lemma Z_of_byte_of_Z (x : Z) : Z_of_byte (byte_of_Z x) = x mod 256.
Proof.
  unfold Z_of_byte, byte_of_Z.
  assert (Hr : 0 <= x mod 256 < 256) by (apply Z.mod_pos_bound; lia).
  destruct (Byte.of_N (Z.to_N (x mod 256))) as [b|] eqn:E.
  - apply Byte.to_of_N in E. rewrite E. lia.
  - apply Byte.of_N_None_iff in E. lia.
Qed.

Lemma Z_of_byte_range (b : byte) : 0 <= Z_of_byte b < 256.
Proof.
  unfold Z_of_byte. pose proof (Byte.to_N_bounded b). lia.
Qed.

Lemma byte_of_Z_of_byte (b : byte) : byte_of_Z (Z_of_byte b) = b.
Proof.
  unfold byte_of_Z. pose proof (Z_of_byte_range b) as Hr.
  rewrite Z.mod_small by exact Hr.
  unfold Z_of_byte. rewrite N2Z.id, Byte.of_to_N. reflexivity.
Qed.

Lemma Uint2bytes_4 (i : Z) :
  Uint2bytes i 4 =
  Ok [ byte_of_Z (Z.shiftr i 24); byte_of_Z (Z.shiftr i 16);
       byte_of_Z (Z.shiftr i 8); byte_of_Z i ].
Proof. reflexivity. Qed.

Lemma Uint2bytes_2 (i : Z) :
  Uint2bytes i 2 = Ok [ byte_of_Z (Z.shiftr i 8); byte_of_Z i ].
Proof. reflexivity. Qed.

Lemma be_value_4 (i : Z) :
  be_value [ byte_of_Z (Z.shiftr i 24); byte_of_Z (Z.shiftr i 16);
             byte_of_Z (Z.shiftr i 8); byte_of_Z i ] = i mod 2 ^ 32.
Proof.
  unfold be_value. cbn [fold_left].
  rewrite !Z_of_byte_of_Z, !Z.shiftr_div_pow2 by lia.
  change (2 ^ 32) with (2 ^ 8 * (2 ^ 8 * (2 ^ 8 * 256))).
  rewrite !Z.rem_mul_r by lia.
  rewrite !Z.div_div by lia.
  change (2 ^ 8 * 2 ^ 8) with (2 ^ 16).
  change (2 ^ 16 * 2 ^ 8) with (2 ^ 24).
  change (2 ^ 8) with 256.
  lia.
Qed.

Lemma be_value_2 (i : Z) :
  be_value [ byte_of_Z (Z.shiftr i 8); byte_of_Z i ] = i mod 2 ^ 16.
Proof.
  unfold be_value. cbn [fold_left].
  rewrite !Z_of_byte_of_Z, !Z.shiftr_div_pow2 by lia.
  change (2 ^ 16) with (2 ^ 8 * 256).
  rewrite !Z.rem_mul_r by lia.
  change (2 ^ 8) with 256.
  lia.
Qed.

(** ** IntegerCodec and TimestampCodec *)

(** C2. An account id below 2^24 is encoded as the four bytes of its
    big-endian form (the value truncated to 32 bits, which is the value
    itself); an account id of 2^24 or more is refused with
    [AccountIdOutOfRange], and no bytes are returned. *)
Theorem serializeAccountId_spec (id : Z) (Hid : is_uint64 id) :
  (id < 2 ^ 24 ->
     exists bs, serializeAccountId id = Ok bs
                /\ List.length bs = 4%nat
                /\ be_value bs = id mod 2 ^ 32
                /\ be_value bs = id)
  /\ (2 ^ 24 <= id -> serializeAccountId id = Err AccountIdOutOfRange).
Proof.
  unfold serializeAccountId, MAX_NUMBER_OF_ACCOUNTS. split; intros H.
  - destruct (Z.leb_spec 16777216 id) as [Hb|Hb]; [lia|].
    rewrite Uint2bytes_4. eexists. split; [reflexivity|].
    split; [reflexivity|].
    rewrite be_value_4. split; [reflexivity|].
    apply Z.mod_small. unfold is_uint64 in Hid. lia.
  - destruct (Z.leb_spec 16777216 id) as [Hb|Hb]; [reflexivity|lia].
Qed.

Lemma serializeAccountId_spec_witness :
  (exists bs, serializeAccountId 66051 = Ok bs
              /\ List.length bs = 4%nat
              /\ be_value bs = 66051 mod 2 ^ 32
              /\ be_value bs = 66051)
  /\ serializeAccountId 16777216 = Err AccountIdOutOfRange.
Proof.
  split.
  - apply (serializeAccountId_spec 66051); unfold is_uint64; lia.
  - apply (serializeAccountId_spec 16777216); unfold is_uint64; lia.
Defined.

(** C3. A token id below 128 is encoded as the two bytes of its big-endian
    form; a token id of 128 or more is refused with [TokenIdOutOfRange],
    and no bytes are returned. *)
Theorem serializeTokenId_spec (tokenId : Z) (Hid : is_uint64 tokenId) :
  (tokenId < 128 ->
     exists bs, serializeTokenId tokenId = Ok bs
                /\ List.length bs = 2%nat
                /\ be_value bs = tokenId)
  /\ (128 <= tokenId -> serializeTokenId tokenId = Err TokenIdOutOfRange).
Proof.
  unfold serializeTokenId, MAX_NUMBER_OF_TOKENS. split; intros H.
  - destruct (Z.leb_spec 128 tokenId) as [Hb|Hb]; [lia|].
    rewrite Uint2bytes_2. eexists. split; [reflexivity|].
    split; [reflexivity|].
    rewrite be_value_2. apply Z.mod_small. unfold is_uint64 in Hid. lia.
  - destruct (Z.leb_spec 128 tokenId) as [Hb|Hb]; [reflexivity|lia].
Qed.

Lemma serializeTokenId_spec_witness :
  (exists bs, serializeTokenId 127 = Ok bs
              /\ List.length bs = 2%nat
              /\ be_value bs = 127)
  /\ serializeTokenId 128 = Err TokenIdOutOfRange.
Proof.
  split.
  - apply (serializeTokenId_spec 127); unfold is_uint64; lia.
  - apply (serializeTokenId_spec 128); unfold is_uint64; lia.
Defined.

(** C7. A negative duration is refused with [NegativeTimestamp]; a zero or
    positive one is encoded in eight bytes: four zero bytes, then the four
    bytes of the big-endian form of the value truncated to 32 bits. *)
Theorem serializeTimestamp_spec (ts : Z) (Hts : is_int64 ts) :
  (ts < 0 -> serializeTimestamp ts = Err NegativeTimestamp)
  /\ (0 <= ts ->
        exists lo, serializeTimestamp ts = Ok ([x00; x00; x00; x00] ++ lo)
                   /\ List.length lo = 4%nat
                   /\ List.length ([x00; x00; x00; x00] ++ lo) = 8%nat
                   /\ be_value lo = ts mod 2 ^ 32).
Proof.
  unfold serializeTimestamp. split; intros H.
  - destruct (Z.ltb_spec ts 0) as [Hb|Hb]; [reflexivity|lia].
  - destruct (Z.ltb_spec ts 0) as [Hb|Hb]; [lia|].
    rewrite Uint2bytes_4. cbn [bind]. eexists. split; [reflexivity|].
    split; [reflexivity|]. split; [reflexivity|].
    rewrite be_value_4. unfold uint64.
    rewrite (Z.mod_small ts (2 ^ 64)); [reflexivity|].
    unfold is_int64 in Hts. lia.
Qed.

Lemma serializeTimestamp_spec_witness :
  serializeTimestamp (-1) = Err NegativeTimestamp
  /\ (exists lo,
        serializeTimestamp 4294967297 = Ok ([x00; x00; x00; x00] ++ lo)
        /\ List.length lo = 4%nat
        /\ List.length ([x00; x00; x00; x00] ++ lo) = 8%nat
        /\ be_value lo = 4294967297 mod 2 ^ 32).
Proof.
  split.
  - apply (serializeTimestamp_spec (-1)); unfold is_int64; lia.
  - apply (serializeTimestamp_spec 4294967297); unfold is_int64; lia.
Defined.

(** ** Strings *)

Lemma length_append (s t : string) :
  String.length (s ++ t) = (String.length s + String.length t)%nat.
Proof. induction s as [|c s IH]; cbn; [reflexivity | now rewrite IH]. Qed.

Lemma append_assoc (s t u : string) : ((s ++ t) ++ u = s ++ (t ++ u))%string.
Proof. induction s as [|c s IH]; cbn; [reflexivity | now rewrite IH]. Qed.

Lemma append_empty_r (s : string) : (s ++ "" = s)%string.
Proof. induction s as [|c s IH]; cbn; [reflexivity | now rewrite IH]. Qed.

Lemma get_append_length (pre suf : string) (k : nat) :
  String.get (String.length pre + k) (pre ++ suf) = String.get k suf.
Proof. induction pre as [|c pre IH]; cbn; [reflexivity | exact IH]. Qed.

Lemma substring_all (s : string) : substring 0 (String.length s) s = s.
Proof. induction s as [|c s IH]; cbn; [reflexivity | now rewrite IH]. Qed.

Lemma prefix_empty (s : string) : prefix "" s = true.
Proof. destruct s; reflexivity. Qed.

Lemma length_bytes_of_string (s : string) :
  List.length (bytes_of_string s) = String.length s.
Proof.
  unfold bytes_of_string, list_byte_of_string. rewrite length_map.
  induction s as [|c s IH]; cbn; [reflexivity | now rewrite IH].
Qed.

Lemma str_at_append_length (pre suf : string) (k : nat) (c : ascii) :
  String.get k suf = Some c ->
  str_at (pre ++ suf) (String.length pre + k) = Ok c.
Proof.
  intros H. unfold str_at. now rewrite get_append_length, H.
Qed.

Lemma length_hex_of_bytes (bs : list byte) :
  String.length (hex_of_bytes bs) = (2 * List.length bs)%nat.
Proof.
  induction bs as [|b bs IH]; [reflexivity|].
  cbn [hex_of_bytes hex_of_byte append String.length List.length].
  rewrite IH. lia.
Qed.

Lemma hex_of_bytes_app (l1 l2 : list byte) :
  hex_of_bytes (l1 ++ l2) = (hex_of_bytes l1 ++ hex_of_bytes l2)%string.
Proof.
  induction l1 as [|b l1 IH]; [reflexivity|].
  cbn [app hex_of_bytes]. rewrite IH. symmetry. apply append_assoc.
Qed.

(** ** Results *)

Lemma bind_Ok_inv {A B : Type} (r : result A) (k : A -> result B) (b : B) :
  bind r k = Ok b -> exists a, r = Ok a /\ k a = Ok b.
Proof. destruct r as [a|e|p]; cbn; intros H; [eauto | discriminate..]. Qed.

Lemma bind_Err_inv {A B : Type} (r : result A) (k : A -> result B) (e : error) :
  bind r k = Err e -> r = Err e \/ exists a, r = Ok a /\ k a = Err e.
Proof.
  destruct r as [a|e'|p]; cbn; intros H;
    [right; eauto | left; now injection H as -> | discriminate].
Qed.

(** ** [strconv.ParseInt] *)

(** Every error of [ParseUint] is a [NumError]. *)
Lemma ParseUint_error (s : string) (base bitSize v : Z) (e : error) :
  strconv.ParseUint s base bitSize = (v, Some e) ->
  exists num k, e = NumError "ParseUint" num k.
Proof.
  unfold strconv.ParseUint.
  destruct s as [|a s]; [intros [= <- <-]; eexists _, _; reflexivity|].
  destruct (negb _); [intros [= <- <-]; eexists _, _; reflexivity|].
  destruct (if base =? 0 then _ else _) as [base' s'].
  destruct (_ || _); [intros [= <- <-]; eexists _, _; reflexivity|].
  destruct (strconv.ParseUint_loop _ _ _ _ _ _ _) as [[n u]|[v' k]].
  - destruct (_ && _); [intros [= <- <-]; eexists _, _; reflexivity|].
    discriminate.
  - intros [= <- <-]; eexists _, _; reflexivity.
Qed.

(** Every error of [ParseInt] is a [NumError] of [ParseInt] on its input. *)
Lemma ParseInt_error (s : string) (base bitSize v : Z) (e : error) :
  strconv.ParseInt s base bitSize = (v, Some e) ->
  exists k, e = NumError "ParseInt" s k.
Proof.
  unfold strconv.ParseInt.
  destruct s as [|a s]; [intros [= <- <-]; eexists; reflexivity|].
  destruct (if code a =? 43 then _ else _) as [neg s'].
  destruct (strconv.ParseUint s' base bitSize) as [un [err|]] eqn:EU.
  - destruct (ParseUint_error _ _ _ _ _ EU) as (num & k & ->).
    case_ifs; intros [= <- <-] || discriminate; eexists; reflexivity.
  - case_ifs; intros [= <- <-] || discriminate; eexists; reflexivity.
Qed.

(** Two lowercase hex digits behind [0x] parse to the byte they spell. *)
Lemma ParseInt_hex_of_byte (b : byte) :
  exists c1 c2,
    hex_of_byte b = String c1 (String c2 EmptyString)
    /\ string_of_rune c1 = String c1 EmptyString
    /\ string_of_rune c2 = String c2 EmptyString
    /\ strconv.ParseInt ("0x" ++ String c1 (String c2 EmptyString)) 0 64
       = (Z_of_byte b, None).
Proof.
  destruct b; do 2 eexists; repeat split; vm_compute; reflexivity.
Qed.

(** ** AddressCodec *)

Lemma removeAddressPrefix_0x (s : string) :
  removeAddressPrefix ("0x" ++ s) = Ok s.
Proof.
  unfold removeAddressPrefix, HasPrefix, slice_from.
  cbn. rewrite prefix_empty, Nat.sub_0_r, substring_all. reflexivity.
Qed.

Lemma removeAddressPrefix_sync (s : string) :
  removeAddressPrefix ("sync:" ++ s) = Ok s.
Proof.
  unfold removeAddressPrefix, HasPrefix, slice_from.
  cbn. rewrite prefix_empty, Nat.sub_0_r, substring_all. reflexivity.
Qed.

Lemma removeAddressPrefix_error (address : string) (e : error) :
  removeAddressPrefix address = Err e ->
  e = Errorf
        "ETH address must start with '0x' and PubKeyHash must start with 'sync:'".
Proof.
  unfold removeAddressPrefix, slice_from.
  case_ifs; intros [= <-] || discriminate; reflexivity.
Qed.

(** The loop, one iteration unfolded. *)
Lemma arrayify_loop_step (address : string) (i : nat) (res : list byte) :
  arrayify_loop address i res =
  if (i <? String.length address)%nat then
    match arrayify_body address i with
    | Ok b => arrayify_loop address (i + 2) (res ++ [b])
    | Err e => Err e
    | Panic p => Panic p
    end
  else Ok res.
Proof.
  rewrite arrayify_loop_equation_1.
  destruct (Nat.ltb_spec i (String.length address)) as [H|H];
    destruct (lt_dec i (String.length address)) as [Hlt|Hge]; try lia.
  - cbn [arrayify_loop_unfold_clause_1].
    destruct (arrayify_body address i); reflexivity.
  - reflexivity.
Qed.

(** The body of the loop decodes a pair of lowercase hex digits to its byte. *)
Lemma arrayify_body_hex (pre suf : string) (b : byte) :
  arrayify_body (pre ++ hex_of_byte b ++ suf) (String.length pre) = Ok b.
Proof.
  destruct (ParseInt_hex_of_byte b) as (c1 & c2 & Hh & H1 & H2 & Hp).
  unfold arrayify_body. rewrite Hh.
  rewrite <- (Nat.add_0_r (String.length pre)) at 1.
  rewrite (str_at_append_length pre _ 0 c1) by reflexivity.
  cbn [bind]. rewrite (str_at_append_length pre _ 1 c2) by reflexivity.
  cbn [bind]. rewrite H1, H2.
  change ("0x" ++ String c1 "" ++ String c2 "")%string
    with ("0x" ++ String c1 (String c2 ""))%string.
  rewrite Hp. now rewrite byte_of_Z_of_byte.
Qed.

Lemma arrayify_body_error (address : string) (i : nat) (e : error) :
  arrayify_body address i = Err e ->
  exists num k, e = NumError "ParseInt" num k.
Proof.
  unfold arrayify_body, str_at.
  destruct (String.get i address) as [a0|]; [|discriminate].
  destruct (String.get (i + 1) address) as [a1|]; [|discriminate].
  cbn [bind].
  destruct (strconv.ParseInt _ 0 64) as [val [err|]] eqn:EP; [|discriminate].
  intros [= <-]. apply ParseInt_error in EP as (k & ->). eauto.
Qed.

(** The loop runs through a stretch of hex pairs, collecting their bytes
    in order, and goes on behind it. *)
Lemma arrayify_loop_hex (addr : list byte) :
  forall (pre suf : string) (res : list byte),
    arrayify_loop (pre ++ hex_of_bytes addr ++ suf) (String.length pre) res
    = arrayify_loop (pre ++ hex_of_bytes addr ++ suf)
        (String.length pre + 2 * List.length addr) (res ++ addr).
Proof.
  induction addr as [|b addr IH]; intros pre suf res.
  - cbn [List.length hex_of_bytes]. rewrite Nat.mul_0_r, Nat.add_0_r, app_nil_r.
    reflexivity.
  - rewrite arrayify_loop_step.
    cbn [hex_of_bytes]. rewrite (append_assoc (hex_of_byte b)).
    rewrite arrayify_body_hex.
    assert (Hlt : (String.length pre
                   <? String.length
                        (pre ++ hex_of_byte b ++ hex_of_bytes addr ++ suf))%nat
                  = true).
    { apply Nat.ltb_lt. rewrite !length_append. cbn. lia. }
    rewrite Hlt.
    replace (pre ++ hex_of_byte b ++ hex_of_bytes addr ++ suf)%string
      with ((pre ++ hex_of_byte b) ++ hex_of_bytes addr ++ suf)%string
      by apply append_assoc.
    replace (String.length pre + 2)%nat
      with (String.length (pre ++ hex_of_byte b))
      by (rewrite length_append; reflexivity).
    rewrite IH. rewrite length_append.
    cbn [List.length hex_of_byte String.length].
    rewrite <- app_assoc. cbn [app].
    f_equal. lia.
Qed.

Lemma arrayifyAddress_hex (addr : list byte) :
  arrayifyAddress (hex_of_bytes addr) = Ok addr.
Proof.
  unfold arrayifyAddress.
  pose proof (arrayify_loop_hex addr "" "" []) as H.
  cbn [append String.length Nat.add app] in H.
  rewrite append_empty_r in H. rewrite H.
  rewrite arrayify_loop_step.
  rewrite length_hex_of_bytes, Nat.ltb_irrefl. reflexivity.
Qed.

(** A single character left behind the last pair is read past the end of
    the string. *)
Lemma arrayifyAddress_odd (addr : list byte) (c : ascii) :
  arrayifyAddress (hex_of_bytes addr ++ String c "")
  = Panic (IndexOutOfRange (2 * Z.of_nat (List.length addr) + 1)
                           (2 * Z.of_nat (List.length addr) + 1)).
Proof.
  unfold arrayifyAddress.
  pose proof (arrayify_loop_hex addr "" (String c "") []) as H.
  cbn [append String.length Nat.add app] in H. rewrite H.
  rewrite arrayify_loop_step.
  rewrite length_append, length_hex_of_bytes. cbn [String.length].
  replace (2 * List.length addr <? 2 * List.length addr + 1)%nat with true
    by (symmetry; apply Nat.ltb_lt; lia).
  unfold arrayify_body.
  rewrite <- (length_hex_of_bytes addr).
  rewrite <- (Nat.add_0_r (String.length (hex_of_bytes addr))) at 1.
  rewrite (str_at_append_length _ _ 0 c) by reflexivity.
  cbn [bind]. unfold str_at.
  rewrite get_append_length. cbn [String.get bind].
  unfold len. rewrite length_append, length_hex_of_bytes. cbn [String.length].
  f_equal. f_equal; lia.
Qed.

(** The loop returns no other error than that of [strconv.ParseInt]. *)
Lemma arrayify_loop_error (n : nat) :
  forall (address : string) (i : nat) (res : list byte) (e : error),
    (String.length address - i <= n)%nat ->
    arrayify_loop address i res = Err e ->
    exists num k, e = NumError "ParseInt" num k.
Proof.
  induction n as [|n IH]; intros address i res e Hn;
    rewrite arrayify_loop_step;
    destruct (Nat.ltb_spec i (String.length address)) as [Hlt|Hge];
    try discriminate; try lia.
  destruct (arrayify_body address i) as [b|e'|p] eqn:Eb.
  - apply IH. lia.
  - intros [= <-]. eapply arrayify_body_error; eassumption.
  - discriminate.
Qed.

Lemma serializeAddress_hex (prefix : string) (addr : list byte) :
  removeAddressPrefix (prefix ++ hex_of_bytes addr) = Ok (hex_of_bytes addr) ->
  List.length addr = 20%nat ->
  serializeAddress (encode_as_hex addr prefix) = Ok addr.
Proof.
  intros Hp Hl. unfold serializeAddress, encode_as_hex.
  rewrite Hp. cbn [bind]. rewrite arrayifyAddress_hex. cbn [bind].
  rewrite Hl. reflexivity.
Qed.

Lemma serializeAddress_length (address : string) (bs : list byte) :
  serializeAddress address = Ok bs -> List.length bs = 20%nat.
Proof.
  unfold serializeAddress. intros H.
  apply bind_Ok_inv in H as (p & _ & H).
  apply bind_Ok_inv in H as (bytes & _ & H).
  destruct (Nat.eqb_spec (List.length bytes) 20) as [E|E]; cbn in H;
    [|discriminate].
  now injection H as <-.
Qed.

(** Every error that [serializeAddress] returns is of a documented kind. *)
Lemma serializeAddress_error_kinds (address : string) (e : error) :
  serializeAddress address = Err e ->
  InvalidAddressFormat e \/ InvalidAddressLength e.
Proof.
  unfold serializeAddress. intros H.
  apply bind_Err_inv in H as [H | (p & _ & H)].
  { left. left. eapply removeAddressPrefix_error; eassumption. }
  apply bind_Err_inv in H as [H | (bytes & _ & H)].
  { left. right. eapply (arrayify_loop_error _ p 0 []); [reflexivity | exact H]. }
  destruct (Nat.eqb_spec (List.length bytes) 20) as [E|E]; cbn in H;
    [discriminate|].
  injection H as <-. right. exists (List.length bytes).
  split; [exact E | reflexivity].
Qed.

(** C4. The lowercase hex text of a 20-byte address, behind either prefix,
    decodes to the address itself; the byte at position [k] of the result
    comes from the characters at positions [2k] and [2k+1] of the text, so
    pairs are taken from left to right and nothing is reordered. *)
Theorem serializeAddress_roundtrip (addr : list byte)
    (Hlen : List.length addr = 20%nat) :
  serializeAddress (encode_as_hex addr "0x") = Ok addr
  /\ serializeAddress (encode_as_hex addr "sync:") = Ok addr
  /\ (forall (k : nat) (b : byte),
        nth_error addr k = Some b ->
        arrayify_body (hex_of_bytes addr) (2 * k) = Ok b).
Proof.
  split; [|split].
  - apply serializeAddress_hex; [apply removeAddressPrefix_0x | exact Hlen].
  - apply serializeAddress_hex; [apply removeAddressPrefix_sync | exact Hlen].
  - intros k b Hk.
    destruct (nth_error_split addr k Hk) as (l1 & l2 & Heq & Hl1).
    rewrite Heq, hex_of_bytes_app. cbn [hex_of_bytes].
    rewrite <- Hl1, <- length_hex_of_bytes.
    apply arrayify_body_hex.
Qed.

Lemma serializeAddress_roundtrip_witness :
  serializeAddress "0x36615cf349d7f6344891b1e7ca7c72883f5dc049"
    = Ok example_from
  /\ serializeAddress "sync:36615cf349d7f6344891b1e7ca7c72883f5dc049"
    = Ok example_from
  /\ (forall (k : nat) (b : byte),
        nth_error example_from k = Some b ->
        arrayify_body "36615cf349d7f6344891b1e7ca7c72883f5dc049" (2 * k)
        = Ok b).
Proof.
  exact (serializeAddress_roundtrip example_from eq_refl).
Defined.

(** C5. An address with an odd number of characters behind its prefix is
    not refused with an error: when the pairs before the last character
    are hex digits, [arrayifyAddress] reads one character past the end of
    the string and the program panics.  The errors that are returned are of
    the documented kinds; and a pair made of an underscore and a hex digit,
    which is not hex, is decoded without error. *)
Theorem serializeAddress_odd_length_panics :
  (forall (addr : list byte) (c : ascii),
      serializeAddress ("0x" ++ hex_of_bytes addr ++ String c "")
      = Panic (IndexOutOfRange (2 * Z.of_nat (List.length addr) + 1)
                               (2 * Z.of_nat (List.length addr) + 1)))
  /\ serializeAddress "0x1" = Panic (IndexOutOfRange 1 1)
  /\ serializeAddress "sync:36615cf349d7f6344891b1e7ca7c72883f5dc0491"
     = Panic (IndexOutOfRange 41 41)
  /\ serializeAddress "0x_6615cf349d7f6344891b1e7ca7c72883f5dc049"
     = Ok (x06 :: tl example_from)
  /\ (forall (address : string) (e : error),
        serializeAddress address = Err e ->
        InvalidAddressFormat e \/ InvalidAddressLength e).
Proof.
  split; [|split; [|split; [|split]]].
  - intros addr c. unfold serializeAddress.
    rewrite removeAddressPrefix_0x. cbn [bind].
    rewrite arrayifyAddress_odd. reflexivity.
  - vm_compute. reflexivity.
  - vm_compute. reflexivity.
  - vm_compute. reflexivity.
  - exact serializeAddress_error_kinds.
Qed.

(** ** AmountCodec *)

(** C6. [serializeAmountPacked] and [serializeFeePacked] never fail: they
    return the text of the value as it is, as many bytes as it has
    characters, whether the value can be packed or not (the check is the
    commented-out code behind [FIXME]). *)
Theorem serializeAmountPacked_never_fails :
  (forall amount : string,
      serializeAmountPacked amount = Ok (bytes_of_string amount)
      /\ List.length (bytes_of_string amount) = String.length amount)
  /\ (forall fee : string,
        serializeFeePacked fee = Ok (bytes_of_string fee)
        /\ List.length (bytes_of_string fee) = String.length fee)
  /\ serializeAmountPacked "100000000000000000000000000000000000000001"
     = Ok (bytes_of_string "100000000000000000000000000000000000000001")
  /\ serializeFeePacked "abc" = Ok [x61; x62; x63].
Proof.
  split; [|split; [|split]].
  - intros amount. split; [reflexivity | apply length_bytes_of_string].
  - intros fee. split; [reflexivity | apply length_bytes_of_string].
  - reflexivity.
  - reflexivity.
Qed.

(** ** TransferSerializer *)

Lemma serializeAccountId_length (id : Z) (bs : list byte) :
  serializeAccountId id = Ok bs -> List.length bs = 4%nat.
Proof.
  unfold serializeAccountId. destruct (_ <=? _); [discriminate|].
  rewrite Uint2bytes_4. intros [= <-]. reflexivity.
Qed.

Lemma serializeTokenId_length (id : Z) (bs : list byte) :
  serializeTokenId id = Ok bs -> List.length bs = 2%nat.
Proof.
  unfold serializeTokenId. destruct (_ <=? _); [discriminate|].
  rewrite Uint2bytes_2. intros [= <-]. reflexivity.
Qed.

Lemma serializeNonce_length (n : Z) (bs : list byte) :
  serializeNonce n = Ok bs -> List.length bs = 4%nat.
Proof.
  unfold serializeNonce. rewrite Uint2bytes_4. intros [= <-]. reflexivity.
Qed.

Lemma serializeTimestamp_length (ts : Z) (bs : list byte) :
  serializeTimestamp ts = Ok bs -> List.length bs = 8%nat.
Proof.
  unfold serializeTimestamp. destruct (_ <? _); [discriminate|].
  rewrite Uint2bytes_4. cbn [bind]. intros [= <-]. reflexivity.
Qed.

(** The serializer gives the outcome of the first field, in the order
    accountId, from, to, token, amount, fee, nonce, validFrom, validUntil,
    that does not succeed, and the concatenation of the fields' bytes when
    all of them succeed. *)
Lemma serializeTransfer_first_failure (tx : Tx) :
  serializeTransfer tx = first_failure (field_results tx).
Proof.
  unfold serializeTransfer, field_results. cbn [first_failure make repeat app].
  destruct (serializeAccountId _); [|reflexivity..].
  destruct (serializeAddress (From tx)); [|reflexivity..].
  destruct (serializeAddress (To tx)); [|reflexivity..].
  destruct (serializeTokenId _); [|reflexivity..].
  cbn [serializeAmountPacked serializeFeePacked bind].
  destruct (serializeNonce _); [|reflexivity..].
  destruct (serializeTimestamp (ValidFrom tx)); [|reflexivity..].
  destruct (serializeTimestamp (ValidUntil tx)); [|reflexivity..].
  cbn [bind]. rewrite app_nil_r, <- !app_assoc. reflexivity.
Qed.

(** C10. The output of a successful serialization is the four bytes of
    the account id, the two addresses, the token, the text of the amount
    and of the fee as it stands, the nonce and the two time stamps: it
    starts with the account id, not with a type tag, and it is
    66 + len(amount) + len(fee) bytes long. *)
Theorem serializeTransfer_layout (tx : Tx) (out : list byte)
    (H : serializeTransfer tx = Ok out) :
  exists accountId from to token nonce validFrom validUntil,
    serializeAccountId (AccountId tx) = Ok accountId
    /\ serializeAddress (From tx) = Ok from
    /\ serializeAddress (To tx) = Ok to
    /\ serializeTokenId (Token tx) = Ok token
    /\ serializeNonce (Nonce tx) = Ok nonce
    /\ serializeTimestamp (ValidFrom tx) = Ok validFrom
    /\ serializeTimestamp (ValidUntil tx) = Ok validUntil
    /\ out = accountId ++ from ++ to ++ token
             ++ bytes_of_string (Amount tx) ++ bytes_of_string (Fee tx)
             ++ nonce ++ validFrom ++ validUntil
    /\ segment out 0 4 = accountId
    /\ List.length out
       = (66 + String.length (Amount tx) + String.length (Fee tx))%nat.
Proof.
  unfold serializeTransfer in H.
  apply bind_Ok_inv in H as (accountId & Ha & H).
  apply bind_Ok_inv in H as (from & Hf & H).
  apply bind_Ok_inv in H as (to & Ht & H).
  apply bind_Ok_inv in H as (token & Hk & H).
  cbn [serializeAmountPacked serializeFeePacked bind] in H.
  apply bind_Ok_inv in H as (nonce & Hn & H).
  apply bind_Ok_inv in H as (validFrom & Hvf & H).
  apply bind_Ok_inv in H as (validUntil & Hvu & H).
  injection H as <-.
  exists accountId, from, to, token, nonce, validFrom, validUntil.
  repeat (split; [assumption|]).
  cbn [make repeat app].
  pose proof (serializeAccountId_length _ _ Ha) as La.
  split; [|split].
  - rewrite <- !app_assoc. reflexivity.
  - unfold segment. cbn [skipn Nat.sub].
    rewrite <- !app_assoc. rewrite <- La, firstn_app, Nat.sub_diag, firstn_all.
    cbn [firstn]. apply app_nil_r.
  - rewrite !length_app, !length_bytes_of_string.
    rewrite La, (serializeAddress_length _ _ Hf),
      (serializeAddress_length _ _ Ht), (serializeTokenId_length _ _ Hk),
      (serializeNonce_length _ _ Hn), (serializeTimestamp_length _ _ Hvf),
      (serializeTimestamp_length _ _ Hvu).
    lia.
Qed.

Lemma serializeTransfer_layout_witness :
  exists accountId from to token nonce validFrom validUntil,
    serializeAccountId (AccountId example_tx) = Ok accountId
    /\ serializeAddress (From example_tx) = Ok from
    /\ serializeAddress (To example_tx) = Ok to
    /\ serializeTokenId (Token example_tx) = Ok token
    /\ serializeNonce (Nonce example_tx) = Ok nonce
    /\ serializeTimestamp (ValidFrom example_tx) = Ok validFrom
    /\ serializeTimestamp (ValidUntil example_tx) = Ok validUntil
    /\ example_output = accountId ++ from ++ to ++ token
             ++ bytes_of_string (Amount example_tx)
             ++ bytes_of_string (Fee example_tx)
             ++ nonce ++ validFrom ++ validUntil
    /\ segment example_output 0 4 = accountId
    /\ List.length example_output
       = (66 + String.length (Amount example_tx)
          + String.length (Fee example_tx))%nat.
Proof.
  apply (serializeTransfer_layout example_tx example_output).
  vm_compute. reflexivity.
Defined.

(** C1. The output has no byte for the type tag and no fixed length: for
    the transaction of the head comment it is 81 bytes long and starts
    with the four bytes of the account id, and with the amount 1000 in
    place of 0 it is 84 bytes long. *)
Theorem serializeTransfer_length_varies :
  serializeTransfer example_tx = Ok example_output
  /\ List.length example_output = 81%nat
  /\ segment example_output 0 4 = [x00; x00; x00; x01]
  /\ serializeAccountId (AccountId example_tx) = Ok [x00; x00; x00; x01]
  /\ (exists out',
        serializeTransfer (with_amount example_tx "1000") = Ok out'
        /\ List.length out' = 84%nat).
Proof.
  split; [vm_compute; reflexivity|].
  split; [reflexivity|]. split; [reflexivity|]. split; [reflexivity|].
  eexists. split; [vm_compute; reflexivity | reflexivity].
Qed.

(** C9. For the transaction of the head comment serialization succeeds
    with 81 bytes, one byte of amount and fourteen of fee among them and
    none for a type tag; the decoded addresses are the bytes 4 to 23 and
    24 to 43 of the output, not the bytes 5 to 24 and 25 to 44 where the
    layout with a type tag has them. *)
Theorem serializeTransfer_example :
  serializeTransfer example_tx = Ok example_output
  /\ List.length example_output = 81%nat
  /\ serializeAddress (From example_tx) = Ok example_from
  /\ serializeAddress (To example_tx) = Ok example_to
  /\ segment example_output 4 24 = example_from
  /\ segment example_output 24 44 = example_to
  /\ segment example_output 5 25 <> example_from
  /\ segment example_output 25 45 <> example_to
  /\ segment example_output 46 47 = bytes_of_string "0"
  /\ segment example_output 47 61 = bytes_of_string "37500000000000".
Proof.
  repeat split; try (vm_compute; reflexivity); vm_compute; discriminate.
Qed.

(** C8. The serializer gives the outcome of the first field that does not
    succeed, in the order of the fields; that outcome is not always an
    error: with the sender [0x1] the program panics in the address codec,
    whether a later field (a token id of 200) is invalid or not.  And an
    amount that is no number at all is no failure: the transaction is
    serialized, its text among the bytes. *)
Theorem serializeTransfer_odd_address_panics :
  (forall tx : Tx, serializeTransfer tx = first_failure (field_results tx))
  /\ serializeAccountId (AccountId example_tx) = Ok [x00; x00; x00; x01]
  /\ serializeAddress "0x1" = Panic (IndexOutOfRange 1 1)
  /\ serializeTokenId 200 = Err TokenIdOutOfRange
  /\ serializeTransfer (with_from_token example_tx "0x1" 200)
     = Panic (IndexOutOfRange 1 1)
  /\ serializeTransfer (with_from_token example_tx "0x1" 0)
     = Panic (IndexOutOfRange 1 1)
  /\ (exists out,
        serializeTransfer (with_amount example_tx "abc") = Ok out
        /\ segment out 46 49 = [x61; x62; x63]).
Proof.
  split; [exact serializeTransfer_first_failure|].
  repeat split; try (vm_compute; reflexivity).
  eexists. split; vm_compute; reflexivity.
Qed.

(** ** More on the integer codecs *)

Lemma length_be_bytes (n : nat) (i : Z) : List.length (be_bytes n i) = n.
Proof.
  revert i. induction n as [|n IH]; intros i; [reflexivity|].
  cbn [be_bytes]. rewrite length_app, IH. cbn. lia.
Qed.

Lemma be_value_snoc (l : list byte) (b : byte) :
  be_value (l ++ [b]) = be_value l * 256 + Z_of_byte b.
Proof. unfold be_value. rewrite fold_left_app. reflexivity. Qed.

Lemma be_value_be_bytes (n : nat) (i : Z) :
  be_value (be_bytes n i) = i mod 2 ^ (8 * Z.of_nat n).
Proof.
  revert i. induction n as [|n IH]; intros i.
  - cbn. now rewrite Z.mod_1_r.
  - cbn [be_bytes]. rewrite be_value_snoc, IH, Z_of_byte_of_Z.
    rewrite Z.shiftr_div_pow2 by lia.
    replace (8 * Z.of_nat (S n)) with (8 + 8 * Z.of_nat n) by lia.
    rewrite Z.pow_add_r by lia.
    change (2 ^ 8) with 256.
    rewrite Z.rem_mul_r by lia. lia.
Qed.

Lemma byte_of_Z_mod (x : Z) : byte_of_Z (x mod 256) = byte_of_Z x.
Proof. unfold byte_of_Z. rewrite Z.mod_mod by lia. reflexivity. Qed.

(** The bytes depend on the value modulo [2 ^ (8 n)] only. *)
Lemma be_bytes_mod (n : nat) (i : Z) :
  be_bytes n (i mod 2 ^ (8 * Z.of_nat n)) = be_bytes n i.
Proof.
  revert i. induction n as [|n IH]; intros i; [reflexivity|].
  cbn [be_bytes].
  replace (8 * Z.of_nat (S n)) with (8 + 8 * Z.of_nat n) by lia.
  rewrite Z.pow_add_r by lia. change (2 ^ 8) with 256.
  assert (Hp : 0 < 2 ^ (8 * Z.of_nat n)) by (apply Z.pow_pos_nonneg; lia).
  f_equal.
  - rewrite <- (IH (Z.shiftr i 8)). f_equal.
    rewrite !Z.shiftr_div_pow2 by lia. change (2 ^ 8) with 256.
    rewrite Z.rem_mul_r by lia.
    rewrite (Z.mul_comm 256), Z.div_add by lia.
    rewrite (Z.div_small (i mod 256)) by (apply Z.mod_pos_bound; lia).
    reflexivity.
  - f_equal. rewrite <- byte_of_Z_mod, <- (byte_of_Z_mod i). f_equal.
    rewrite Z.rem_mul_r by lia.
    rewrite Z.mul_comm, Z.mod_add by lia. apply Z.mod_mod. lia.
Qed.

Lemma be_bytes_eq_iff (n : nat) (i j : Z) :
  be_bytes n i = be_bytes n j
  <-> i mod 2 ^ (8 * Z.of_nat n) = j mod 2 ^ (8 * Z.of_nat n).
Proof.
  split; intros H.
  - rewrite <- !be_value_be_bytes. now rewrite H.
  - rewrite <- (be_bytes_mod n i), <- (be_bytes_mod n j). now rewrite H.
Qed.

Lemma Uint2bytes_be_bytes (i size : Z) :
  0 <= size <= 8 -> Uint2bytes i size = Ok (be_bytes (Z.to_nat size) i).
Proof.
  intros H.
  assert (Hs : size = 0 \/ size = 1 \/ size = 2 \/ size = 3 \/ size = 4
               \/ size = 5 \/ size = 6 \/ size = 7 \/ size = 8) by lia.
  repeat (destruct Hs as [-> | Hs]); try subst size;
    cbn; rewrite ?Z.shiftr_shiftr by lia; reflexivity.
Qed.

(** X1. For a width from 0 to 8, [Uint2bytes] gives exactly that many
    bytes, and read big-endian they are the value modulo 2^(8 * width):
    the high bytes of a larger value are dropped without an error. *)
Theorem Uint2bytes_spec (i size : Z) (Hsize : 0 <= size <= 8) :
  exists bs, Uint2bytes i size = Ok bs
             /\ Z.of_nat (List.length bs) = size
             /\ be_value bs = i mod 2 ^ (8 * size).
Proof.
  exists (be_bytes (Z.to_nat size) i).
  split; [now apply Uint2bytes_be_bytes|].
  rewrite length_be_bytes, be_value_be_bytes, Z2Nat.id by lia.
  split; reflexivity.
Qed.

Lemma Uint2bytes_spec_witness :
  exists bs, Uint2bytes 66051 3 = Ok bs
             /\ Z.of_nat (List.length bs) = 3
             /\ be_value bs = 66051 mod 2 ^ (8 * 3).
Proof. apply (Uint2bytes_spec 66051 3). lia. Defined.



Lemma Ok_inj {A : Type} (a b : A) : Ok a = Ok b -> a = b.
Proof. now intros [= ->]. Qed.

(** X3. [serializeNonce] never fails and gives four bytes; two nonces
    have the same bytes exactly when they agree modulo 2^32. *)
Theorem serializeNonce_collide_iff (n m : Z) :
  (exists bs, serializeNonce n = Ok bs /\ List.length bs = 4%nat)
  /\ (serializeNonce n = serializeNonce m <-> n mod 2 ^ 32 = m mod 2 ^ 32).
Proof.
  unfold serializeNonce.
  rewrite !(Uint2bytes_be_bytes _ 4) by lia.
  split.
  - eexists. split; [reflexivity | apply length_be_bytes].
  - rewrite <- (be_bytes_eq_iff 4 n m). split; [apply Ok_inj | intros H; exact (f_equal Ok H)].
Qed.

(** X4. Two durations that are not negative have the same encoding
    exactly when they agree modulo 2^32. *)
Theorem serializeTimestamp_collide_iff (ts ts' : Z)
    (Hts : 0 <= ts) (Hts' : 0 <= ts') :
  serializeTimestamp ts = serializeTimestamp ts'
  <-> ts mod 2 ^ 32 = ts' mod 2 ^ 32.
Proof.
  unfold serializeTimestamp.
  destruct (Z.ltb_spec ts 0); [lia|]. destruct (Z.ltb_spec ts' 0); [lia|].
  rewrite !(Uint2bytes_be_bytes _ 4) by lia. cbn [bind].
  assert (Hm : forall x, uint64 x mod 2 ^ 32 = x mod 2 ^ 32).
  { intros x. unfold uint64. change (2 ^ 64) with (2 ^ 32 * 2 ^ 32).
    rewrite Z.rem_mul_r by lia. rewrite Z.mul_comm, Z.mod_add by lia.
    apply Z.mod_mod. lia. }
  rewrite <- (Hm ts), <- (Hm ts').
  rewrite <- (be_bytes_eq_iff 4 (uint64 ts) (uint64 ts')).
  split.
  - intros E. apply Ok_inj in E. apply app_inv_head in E. exact E.
  - intros E. exact (f_equal (fun l => Ok (make 4 4 ++ l)) E).
Qed.

Lemma serializeTimestamp_collide_iff_witness :
  serializeTimestamp 1 = serializeTimestamp 4294967297
  <-> 1 mod 2 ^ 32 = 4294967297 mod 2 ^ 32.
Proof. apply (serializeTimestamp_collide_iff 1 4294967297); lia. Defined.

(** ** More on the address codec *)

Lemma all_pairs_checked :
  forallb (fun c1 => forallb (fun c2 => pair_checked c1 c2) all_ascii) all_ascii
  = true.
Proof. vm_compute. reflexivity. Qed.

(** *** Prefixes *)

Lemma prefix_split (p s : string) :
  prefix p s = true ->
  s = (p ++ substring (String.length p) (String.length s - String.length p) s)%string.
Proof.
  revert s. induction p as [|a p IH]; intros s H.
  - cbn. now rewrite Nat.sub_0_r, substring_all.
  - destruct s as [|b s]; [discriminate|]. cbn in H.
    destruct (ascii_dec a b) as [->|]; [|discriminate].
    cbn. f_equal. now apply IH.
Qed.

Lemma prefix_length (p s : string) :
  prefix p s = true -> (String.length p <= String.length s)%nat.
Proof.
  intros H. rewrite (prefix_split p s H), length_append. lia.
Qed.

Lemma prefix_append (p s : string) : prefix p (p ++ s) = true.
Proof.
  induction p as [|a p IH]; cbn; [apply prefix_empty|].
  destruct (ascii_dec a a); [exact IH | congruence].
Qed.

Lemma slice_from_prefix (p s : string) :
  prefix p s = true ->
  exists rest, slice_from s (String.length p) = Ok rest /\ s = (p ++ rest)%string.
Proof.
  intros H. unfold slice_from.
  pose proof (prefix_length p s H) as Hl.
  destruct (Nat.ltb_spec (String.length s) (String.length p)); [lia|].
  eexists. split; [reflexivity | now apply prefix_split].
Qed.

Lemma removeAddressPrefix_Ok_parts (address p : string) :
  removeAddressPrefix address = Ok p ->
  address = ("0x" ++ p)%string \/ address = ("sync:" ++ p)%string.
Proof.
  unfold removeAddressPrefix, HasPrefix.
  destruct (prefix "0x" address) eqn:E0.
  { destruct (slice_from_prefix _ _ E0) as (rest & Hs & Heq).
    change (String.length "0x") with 2%nat in Hs. rewrite Hs.
    intros [= <-]. now left. }
  destruct (prefix "sync:" address) eqn:E1; [|discriminate].
  destruct (slice_from_prefix _ _ E1) as (rest & Hs & Heq).
  change (String.length "sync:") with 5%nat in Hs. rewrite Hs.
  intros [= <-]. now right.
Qed.

Lemma removeAddressPrefix_no_panic (address : string) (q : panic) :
  removeAddressPrefix address <> Panic q.
Proof.
  unfold removeAddressPrefix, HasPrefix.
  destruct (prefix "0x" address) eqn:E0.
  { destruct (slice_from_prefix _ _ E0) as (rest & Hs & Heq).
    change (String.length "0x") with 2%nat in Hs. rewrite Hs. discriminate. }
  destruct (prefix "sync:" address) eqn:E1; [|discriminate].
  destruct (slice_from_prefix _ _ E1) as (rest & Hs & Heq).
  change (String.length "sync:") with 5%nat in Hs. rewrite Hs. discriminate.
Qed.

Lemma removeAddressPrefix_Err_no_prefix (address : string) (e : error) :
  removeAddressPrefix address = Err e ->
  HasPrefix address "0x" = false /\ HasPrefix address "sync:" = false.
Proof.
  unfold removeAddressPrefix. unfold HasPrefix at 1 2.
  destruct (prefix "0x" address) eqn:E0.
  { destruct (slice_from_prefix _ _ E0) as (rest & Hs & Heq).
    change (String.length "0x") with 2%nat in Hs. rewrite Hs. discriminate. }
  destruct (prefix "sync:" address) eqn:E1.
  { destruct (slice_from_prefix _ _ E1) as (rest & Hs & Heq).
    change (String.length "sync:") with 5%nat in Hs. rewrite Hs. discriminate. }
  intros _. unfold HasPrefix. now rewrite E0, E1.
Qed.

(** X5. [removeAddressPrefix] returns [p] exactly for the addresses
    [0x] + [p] and [sync:] + [p], and it never panics. *)
Theorem removeAddressPrefix_Ok_iff (address p : string) :
  (removeAddressPrefix address = Ok p
   <-> address = ("0x" ++ p)%string \/ address = ("sync:" ++ p)%string)
  /\ (forall q, removeAddressPrefix address <> Panic q).
Proof.
  split; [split|].
  - apply removeAddressPrefix_Ok_parts.
  - intros [-> | ->];
      [apply removeAddressPrefix_0x | apply removeAddressPrefix_sync].
  - apply removeAddressPrefix_no_panic.
Qed.

(** *** Pairs of characters *)

Lemma in_all_ascii (c : ascii) : In c all_ascii.
Proof.
  unfold all_ascii. rewrite <- (ascii_nat_embedding c).
  apply in_map, in_seq. pose proof (nat_ascii_bounded c). lia.
Qed.

Lemma pair_checked_true (c1 c2 : ascii) : pair_checked c1 c2 = true.
Proof.
  pose proof all_pairs_checked as H.
  rewrite forallb_forall in H. specialize (H c1 (in_all_ascii c1)).
  rewrite forallb_forall in H. exact (H c2 (in_all_ascii c2)).
Qed.

Lemma arrayify_body_two (c1 c2 : ascii) :
  arrayify_body (String c1 (String c2 EmptyString)) 0 =
  match pair_value c1 c2 with
  | Some v => Ok (byte_of_Z v)
  | None =>
      Err (NumError "ParseInt"
             ("0x" ++ string_of_rune c1 ++ string_of_rune c2)%string ErrSyntax)
  end.
Proof.
  pose proof (pair_checked_true c1 c2) as H. unfold pair_checked in H.
  destruct (arrayify_body (String c1 (String c2 "")) 0) as [b|e|p];
    destruct (pair_value c1 c2) as [v|]; try discriminate.
  - apply Byte.byte_dec_bl in H. now subst.
  - destruct e as [m|f n k]; [discriminate|]. destruct k; discriminate.
  - destruct e as [m|f n k]; [discriminate|]. destruct k; try discriminate.
    apply andb_prop in H as [Hf Hn].
    apply String.eqb_eq in Hf, Hn. now subst.
Qed.

Lemma arrayify_body_at (address : string) (i : nat) (c1 c2 : ascii) :
  String.get i address = Some c1 ->
  String.get (i + 1) address = Some c2 ->
  arrayify_body address i = arrayify_body (String c1 (String c2 EmptyString)) 0.
Proof.
  intros H1 H2. unfold arrayify_body, str_at. rewrite H1, H2. reflexivity.
Qed.

(** X6. The body of the loop of [arrayifyAddress], on the characters
    [c1] and [c2] at the positions [i] and [i + 1]: two hex digits of
    either case give the byte they spell, an underscore and a hex digit give
    the digit, and every other pair gives the syntax error of
    [strconv.ParseInt] on [0x] and the two characters. *)
Theorem arrayify_body_pair_value (address : string) (i : nat) (c1 c2 : ascii)
    (H1 : String.get i address = Some c1)
    (H2 : String.get (i + 1) address = Some c2) :
  arrayify_body address i =
  match pair_value c1 c2 with
  | Some v => Ok (byte_of_Z v)
  | None =>
      Err (NumError "ParseInt"
             ("0x" ++ string_of_rune c1 ++ string_of_rune c2)%string ErrSyntax)
  end.
Proof.
  rewrite (arrayify_body_at address i c1 c2 H1 H2). apply arrayify_body_two.
Qed.

Lemma arrayify_body_pair_value_witness :
  arrayify_body "a_Fz" 1 =
  match pair_value "_" "F" with
  | Some v => Ok (byte_of_Z v)
  | None =>
      Err (NumError "ParseInt"
             ("0x" ++ string_of_rune "_" ++ string_of_rune "F")%string ErrSyntax)
  end.
Proof.
  apply (arrayify_body_pair_value "a_Fz" 1 "_" "F"); reflexivity.
Defined.

(** *** The loop and its recursive form *)

Lemma string_pair_ind (P : string -> Prop) :
  P EmptyString ->
  (forall c, P (String c EmptyString)) ->
  (forall c1 c2 s, P s -> P (String c1 (String c2 s))) ->
  forall s, P s.
Proof.
  intros H0 H1 H2 s.
  enough (P s /\ forall c, P (String c s)) by tauto.
  induction s as [|a s [IHs IHc]]; split; auto.
Qed.

Lemma arrayify_loop_decode_pairs (suf : string) :
  forall (pre : string) (res : list byte),
    arrayify_loop (pre ++ suf) (String.length pre) res
    = (bs <- decode_pairs (len (pre ++ suf)) suf ;; Ok (res ++ bs)).
Proof.
  induction suf as [|c|c1 c2 suf IH] using string_pair_ind; intros pre res.
  - rewrite arrayify_loop_step, length_append. cbn [String.length].
    rewrite Nat.add_0_r, Nat.ltb_irrefl. cbn. now rewrite app_nil_r.
  - rewrite arrayify_loop_step, length_append. cbn [String.length].
    replace (String.length pre <? String.length pre + 1)%nat with true
      by (symmetry; apply Nat.ltb_lt; lia).
    unfold arrayify_body.
    rewrite <- (Nat.add_0_r (String.length pre)) at 1.
    rewrite (str_at_append_length pre _ 0 c) by reflexivity.
    cbn [bind]. unfold str_at. rewrite get_append_length. cbn [String.get bind].
    cbn [decode_pairs bind]. unfold len. rewrite length_append.
    cbn [String.length]. repeat f_equal; lia.
  - rewrite arrayify_loop_step, length_append. cbn [String.length].
    replace (String.length pre <? String.length pre + S (S (String.length suf)))%nat
      with true by (symmetry; apply Nat.ltb_lt; lia).
    rewrite (arrayify_body_at _ _ c1 c2).
    2:{ rewrite <- (Nat.add_0_r (String.length pre)).
        now rewrite get_append_length. }
    2:{ now rewrite get_append_length. }
    rewrite arrayify_body_two. cbn [decode_pairs].
    destruct (pair_value c1 c2) as [v|]; [|reflexivity].
    replace (pre ++ String c1 (String c2 suf))%string
      with ((pre ++ String c1 (String c2 "")) ++ suf)%string
      by (rewrite append_assoc; reflexivity).
    replace (String.length pre + 2)%nat
      with (String.length (pre ++ String c1 (String c2 "")))
      by (rewrite length_append; reflexivity).
    rewrite IH.
    destruct (decode_pairs _ suf) as [bs|e|p]; cbn [bind]; [|reflexivity..].
    now rewrite <- app_assoc.
Qed.

Lemma arrayifyAddress_as_pairs (address : string) :
  arrayifyAddress address = decode_pairs (len address) address.
Proof.
  unfold arrayifyAddress.
  pose proof (arrayify_loop_decode_pairs address "" []) as H.
  cbn [append app String.length] in H. rewrite H.
  destruct (decode_pairs _ address); reflexivity.
Qed.

(** X7. [arrayifyAddress] is the decoder by pairs: it stops at the
    first pair that is refused, and a single character left at the end
    makes it panic with the index and the length both equal to the length
    of the text. *)
Theorem arrayifyAddress_decode_pairs (address : string) :
  arrayifyAddress address = decode_pairs (len address) address.
Proof. exact (arrayifyAddress_as_pairs address). Qed.

Lemma decode_pairs_Ok_length (total : Z) (s : string) :
  forall bs, decode_pairs total s = Ok bs ->
             String.length s = (2 * List.length bs)%nat.
Proof.
  induction s as [|c|c1 c2 s IH] using string_pair_ind; intros bs H.
  - injection H as <-. reflexivity.
  - discriminate.
  - cbn [decode_pairs] in H. destruct (pair_value c1 c2); [|discriminate].
    apply bind_Ok_inv in H as (bs' & H' & H). injection H as <-.
    cbn [String.length List.length]. rewrite (IH _ H'). lia.
Qed.

Lemma decode_pairs_Panic (total : Z) (s : string) :
  forall p, decode_pairs total s = Panic p ->
            Nat.Odd (String.length s) /\ p = IndexOutOfRange total total.
Proof.
  induction s as [|c|c1 c2 s IH] using string_pair_ind; intros p H.
  - discriminate.
  - injection H as <-. split; [exists 0%nat; reflexivity | reflexivity].
  - cbn [decode_pairs] in H. destruct (pair_value c1 c2); [|discriminate].
    destruct (decode_pairs total s) as [bs|e|q]; cbn in H; try discriminate.
    injection H as <-. destruct (IH q eq_refl) as [[k Hk] ->].
    split; [|reflexivity]. exists (S k). cbn [String.length]. lia.
Qed.

(** X8. When [arrayifyAddress] succeeds, the text has twice as many
    characters as there are bytes: no text of odd length is decoded. *)
Theorem arrayifyAddress_Ok_length (address : string) (bs : list byte)
    (H : arrayifyAddress address = Ok bs) :
  String.length address = (2 * List.length bs)%nat.
Proof.
  rewrite arrayifyAddress_as_pairs in H.
  eapply decode_pairs_Ok_length; eassumption.
Qed.

Lemma arrayifyAddress_Ok_length_witness :
  String.length "36615cf3" = (2 * List.length [x36; x61; x5c; xf3])%nat.
Proof.
  apply (arrayifyAddress_Ok_length "36615cf3" [x36; x61; x5c; xf3]).
  vm_compute. reflexivity.
Defined.

(** X9. [arrayifyAddress] panics on texts of odd length only, and then
    with [index out of range [n] with length n], [n] the length of the
    text. *)
Theorem arrayifyAddress_Panic_odd (address : string) (p : panic)
    (H : arrayifyAddress address = Panic p) :
  Nat.Odd (String.length address)
  /\ p = IndexOutOfRange (len address) (len address).
Proof.
  rewrite arrayifyAddress_as_pairs in H.
  eapply decode_pairs_Panic; eassumption.
Qed.

Lemma arrayifyAddress_Panic_odd_witness :
  Nat.Odd (String.length "abc")
  /\ IndexOutOfRange 3 3 = IndexOutOfRange (len "abc") (len "abc").
Proof.
  apply (arrayifyAddress_Panic_odd "abc" (IndexOutOfRange 3 3)).
  vm_compute. reflexivity.
Defined.

Lemma pair_value_hex_digit_case (u1 u2 : bool) (b : byte) :
  pair_value (hex_digit_case u1 (Z_of_byte b / 16))
             (hex_digit_case u2 (Z_of_byte b mod 16))
  = Some (Z_of_byte b).
Proof. destruct b, u1, u2; vm_compute; reflexivity. Qed.

Lemma decode_pairs_cased (total : Z) (upper : nat -> bool) (bs : list byte) :
  forall pos, decode_pairs total (hex_of_bytes_cased upper pos bs) = Ok bs.
Proof.
  induction bs as [|b bs IH]; intros pos; [reflexivity|].
  cbn [hex_of_bytes_cased decode_pairs].
  rewrite pair_value_hex_digit_case, IH. cbn [bind].
  now rewrite byte_of_Z_of_byte.
Qed.

(** X10. Decoding does not depend on the case of the hex digits: the
    hex text of a 20-byte address, each digit in upper or lower case as its
    position says, decodes to the address behind either prefix. *)
Theorem serializeAddress_any_case (upper : nat -> bool) (addr : list byte)
    (Hlen : List.length addr = 20%nat) :
  serializeAddress ("0x" ++ hex_of_bytes_cased upper 0 addr) = Ok addr
  /\ serializeAddress ("sync:" ++ hex_of_bytes_cased upper 0 addr) = Ok addr.
Proof.
  unfold serializeAddress.
  rewrite removeAddressPrefix_0x, removeAddressPrefix_sync. cbn [bind].
  rewrite arrayifyAddress_as_pairs, decode_pairs_cased. cbn [bind].
  rewrite Hlen. split; reflexivity.
Qed.

Lemma serializeAddress_any_case_witness :
  serializeAddress "0x36615Cf349D7f6344891b1E7Ca7c72883f5Dc049" = Ok example_from
  /\ serializeAddress "sync:36615Cf349D7f6344891b1E7Ca7c72883f5Dc049"
     = Ok example_from.
Proof.
  exact (serializeAddress_any_case (fun n => Nat.eqb (n mod 5) 0) example_from
           eq_refl).
Defined.

(** X11. An address that [serializeAddress] accepts is [0x] or [sync:]
    followed by exactly 40 characters, and the result is the 20 bytes that
    [arrayifyAddress] gives for them. *)
Theorem serializeAddress_Ok_shape (address : string) (bs : list byte)
    (H : serializeAddress address = Ok bs) :
  List.length bs = 20%nat
  /\ exists hex,
       String.length hex = 40%nat
       /\ arrayifyAddress hex = Ok bs
       /\ (address = ("0x" ++ hex)%string \/ address = ("sync:" ++ hex)%string).
Proof.
  pose proof (serializeAddress_length _ _ H) as Hl. split; [exact Hl|].
  unfold serializeAddress in H.
  apply bind_Ok_inv in H as (hex & Hp & H).
  apply bind_Ok_inv in H as (bytes & Ha & H).
  destruct (Nat.eqb_spec (List.length bytes) 20) as [E|E]; cbn in H;
    [|discriminate].
  injection H as <-.
  exists hex. split; [|split].
  - rewrite (decode_pairs_Ok_length (len hex) hex bytes), E; [reflexivity|].
    now rewrite <- arrayifyAddress_as_pairs.
  - exact Ha.
  - now apply removeAddressPrefix_Ok_parts.
Qed.

Lemma serializeAddress_Ok_shape_witness :
  List.length example_from = 20%nat
  /\ exists hex,
       String.length hex = 40%nat
       /\ arrayifyAddress hex = Ok example_from
       /\ ("sync:36615cf349d7f6344891b1e7ca7c72883f5dc049" = ("0x" ++ hex)%string
           \/ "sync:36615cf349d7f6344891b1e7ca7c72883f5dc049"
              = ("sync:" ++ hex)%string).
Proof.
  apply (serializeAddress_Ok_shape
           "sync:36615cf349d7f6344891b1e7ca7c72883f5dc049" example_from).
  vm_compute. reflexivity.
Defined.

(** X12. Hex text behind a prefix that spells another number of bytes
    than 20 (none at all, too) is refused with the message that gives the
    number of bytes. *)
Theorem serializeAddress_wrong_count (addr : list byte)
    (Hlen : List.length addr <> 20%nat) :
  serializeAddress ("0x" ++ hex_of_bytes addr)
  = Err (Errorf ("Address must be 20 bytes long. len: "
                 ++ decimal (List.length addr))%string)
  /\ serializeAddress ("sync:" ++ hex_of_bytes addr)
     = Err (Errorf ("Address must be 20 bytes long. len: "
                    ++ decimal (List.length addr))%string).
Proof.
  unfold serializeAddress.
  rewrite removeAddressPrefix_0x, removeAddressPrefix_sync. cbn [bind].
  rewrite arrayifyAddress_hex. cbn [bind].
  destruct (Nat.eqb_spec (List.length addr) 20) as [E|E]; [contradiction|].
  split; reflexivity.
Qed.

Lemma serializeAddress_wrong_count_witness :
  serializeAddress "0x" = Err (Errorf "Address must be 20 bytes long. len: 0")
  /\ serializeAddress "sync:"
     = Err (Errorf "Address must be 20 bytes long. len: 0").
Proof.
  apply (serializeAddress_wrong_count []). discriminate.
Defined.

(** X13. [serializeAddress] returns the error about the prefix exactly
    when the address starts with neither [0x] nor [sync:]. *)
Theorem serializeAddress_prefix_error_iff (address : string) :
  serializeAddress address
  = Err (Errorf
      "ETH address must start with '0x' and PubKeyHash must start with 'sync:'")
  <-> HasPrefix address "0x" = false /\ HasPrefix address "sync:" = false.
Proof.
  split.
  - unfold serializeAddress. intros H.
    apply bind_Err_inv in H as [H | (p & _ & H)].
    { eapply removeAddressPrefix_Err_no_prefix; eassumption. }
    apply bind_Err_inv in H as [H | (bytes & _ & H)].
    { apply (arrayify_loop_error (String.length p - 0) p 0 []) in H
        as (num & k & H); [discriminate | reflexivity]. }
    destruct (negb _); cbn in H; discriminate.
  - intros [H0 H1]. unfold serializeAddress, removeAddressPrefix.
    now rewrite H0, H1.
Qed.

(** ** More on the serializer *)

Lemma serializeAccountId_cases (id : Z) :
  (id < 2 ^ 24 /\ serializeAccountId id = Ok (be_bytes 4 id))
  \/ (2 ^ 24 <= id /\ serializeAccountId id = Err AccountIdOutOfRange).
Proof.
  unfold serializeAccountId, MAX_NUMBER_OF_ACCOUNTS.
  destruct (Z.leb_spec 16777216 id); [right | left]; split; try lia;
    [reflexivity|].
  now rewrite (Uint2bytes_be_bytes id 4) by lia.
Qed.

Lemma serializeTokenId_cases (id : Z) :
  (id < 128 /\ serializeTokenId id = Ok (be_bytes 2 id))
  \/ (128 <= id /\ serializeTokenId id = Err TokenIdOutOfRange).
Proof.
  unfold serializeTokenId, MAX_NUMBER_OF_TOKENS.
  destruct (Z.leb_spec 128 id); [right | left]; split; try lia;
    [reflexivity|].
  now rewrite (Uint2bytes_be_bytes id 2) by lia.
Qed.

Lemma serializeNonce_Ok (n : Z) : serializeNonce n = Ok (be_bytes 4 n).
Proof. unfold serializeNonce. now rewrite (Uint2bytes_be_bytes n 4) by lia. Qed.

Lemma serializeTimestamp_cases (ts : Z) :
  (0 <= ts
   /\ serializeTimestamp ts = Ok (make 4 4 ++ be_bytes 4 (uint64 ts)))
  \/ (ts < 0 /\ serializeTimestamp ts = Err NegativeTimestamp).
Proof.
  unfold serializeTimestamp.
  destruct (Z.ltb_spec ts 0); [right | left]; split; try lia; [reflexivity|].
  now rewrite (Uint2bytes_be_bytes _ 4) by lia.
Qed.

Lemma serializeAddress_Panic (address : string) (p : panic) :
  serializeAddress address = Panic p ->
  exists hex,
    (address = ("0x" ++ hex)%string \/ address = ("sync:" ++ hex)%string)
    /\ Nat.Odd (String.length hex)
    /\ p = IndexOutOfRange (len hex) (len hex).
Proof.
  unfold serializeAddress. intros H.
  destruct (removeAddressPrefix address) as [hex|e|q] eqn:Ep; cbn [bind] in H;
    [|discriminate|].
  2:{ now apply removeAddressPrefix_no_panic in Ep. }
  exists hex. split; [now apply removeAddressPrefix_Ok_parts|].
  destruct (arrayifyAddress hex) as [bytes|e|q] eqn:Ea; cbn [bind] in H.
  - destruct (negb _); discriminate.
  - discriminate.
  - injection H as ->. rewrite arrayifyAddress_as_pairs in Ea.
    now apply decode_pairs_Panic in Ea.
Qed.

Lemma bytes_of_string_app (a b : string) :
  bytes_of_string (a ++ b) = bytes_of_string a ++ bytes_of_string b.
Proof.
  unfold bytes_of_string, list_byte_of_string.
  induction a as [|c a IH]; [reflexivity|]. cbn. now rewrite IH.
Qed.

(** X14. [serializeTransfer] succeeds exactly when the account id is
    below 2^24, both addresses are accepted, the token is below 128 and the
    two time stamps are not negative: amount, fee and nonce never make it
    fail. *)
Theorem serializeTransfer_Ok_iff (tx : Tx) :
  (exists out, serializeTransfer tx = Ok out)
  <-> AccountId tx < 2 ^ 24
      /\ (exists from, serializeAddress (From tx) = Ok from)
      /\ (exists to, serializeAddress (To tx) = Ok to)
      /\ Token tx < 128
      /\ 0 <= ValidFrom tx
      /\ 0 <= ValidUntil tx.
Proof.
  rewrite serializeTransfer_first_failure. unfold field_results.
  cbn [first_failure serializeAmountPacked serializeFeePacked].
  rewrite serializeNonce_Ok.
  destruct (serializeAccountId_cases (AccountId tx)) as [[Ha ->]|[Ha ->]].
  2:{ split; [intros [out H]; discriminate | lia]. }
  destruct (serializeAddress (From tx)) as [from|e|p].
  2,3: split; [intros [out H]; discriminate
              | intros (_ & [f H] & _); discriminate].
  destruct (serializeAddress (To tx)) as [to|e|p].
  2,3: split; [intros [out H]; discriminate
              | intros (_ & _ & [t H] & _); discriminate].
  destruct (serializeTokenId_cases (Token tx)) as [[Hk ->]|[Hk ->]].
  2:{ split; [intros [out H]; discriminate | lia]. }
  destruct (serializeTimestamp_cases (ValidFrom tx)) as [[Hf ->]|[Hf ->]].
  2:{ split; [intros [out H]; discriminate | lia]. }
  destruct (serializeTimestamp_cases (ValidUntil tx)) as [[Hu ->]|[Hu ->]].
  2:{ split; [intros [out H]; discriminate | lia]. }
  cbn [bind]. split; [intros _ | intros _; eexists; reflexivity].
  repeat split; eauto.
Qed.

(** X15. The output does not tell where the amount ends and the fee
    begins: moving characters from the end of the amount to the front of
    the fee changes nothing in the result. *)
Theorem serializeTransfer_amount_fee_ambiguous (tx : Tx) (a b c : string) :
  serializeTransfer (with_amount_fee tx (a ++ b) c)
  = serializeTransfer (with_amount_fee tx a (b ++ c)).
Proof.
  unfold serializeTransfer, with_amount_fee.
  cbn [AccountId From To Token Amount Fee Nonce ValidFrom ValidUntil].
  unfold serializeAmountPacked, serializeFeePacked.
  rewrite !bytes_of_string_app.
  destruct (serializeAccountId _); [|reflexivity..]. cbn [bind].
  destruct (serializeAddress (From tx)); [|reflexivity..]. cbn [bind].
  destruct (serializeAddress (To tx)); [|reflexivity..]. cbn [bind].
  destruct (serializeTokenId _); [|reflexivity..]. cbn [bind].
  destruct (serializeNonce _); [|reflexivity..]. cbn [bind].
  destruct (serializeTimestamp (ValidFrom tx)); [|reflexivity..]. cbn [bind].
  destruct (serializeTimestamp (ValidUntil tx)); [|reflexivity..]. cbn [bind].
  now rewrite <- !app_assoc.
Qed.

(** X16. An error of [serializeTransfer] is the account id error, an
    address error of a documented kind, the token id error or the error of
    a negative time stamp. *)
Theorem serializeTransfer_error_kinds (tx : Tx) (e : error)
    (H : serializeTransfer tx = Err e) :
  e = AccountIdOutOfRange
  \/ InvalidAddressFormat e \/ InvalidAddressLength e
  \/ e = TokenIdOutOfRange
  \/ e = NegativeTimestamp.
Proof.
  rewrite serializeTransfer_first_failure in H. unfold field_results in H.
  cbn [first_failure serializeAmountPacked serializeFeePacked] in H.
  rewrite serializeNonce_Ok in H.
  destruct (serializeAccountId_cases (AccountId tx)) as [[Ha Ea]|[Ha Ea]];
    rewrite Ea in H; [|injection H as <-; now left].
  destruct (serializeAddress (From tx)) as [from|e'|p] eqn:Ef;
    [| injection H as <-; right;
       destruct (serializeAddress_error_kinds _ _ Ef); tauto
     | discriminate].
  destruct (serializeAddress (To tx)) as [to|e'|p] eqn:Et;
    [| injection H as <-; right;
       destruct (serializeAddress_error_kinds _ _ Et); tauto
     | discriminate].
  destruct (serializeTokenId_cases (Token tx)) as [[Hk Ek]|[Hk Ek]];
    rewrite Ek in H; [|injection H as <-; tauto].
  destruct (serializeTimestamp_cases (ValidFrom tx)) as [[Hf Evf]|[Hf Evf]];
    rewrite Evf in H; [|injection H as <-; tauto].
  destruct (serializeTimestamp_cases (ValidUntil tx)) as [[Hu Evu]|[Hu Evu]];
    rewrite Evu in H; [discriminate | injection H as <-; tauto].
Qed.

Lemma serializeTransfer_error_kinds_witness :
  TokenIdOutOfRange = AccountIdOutOfRange
  \/ InvalidAddressFormat TokenIdOutOfRange
  \/ InvalidAddressLength TokenIdOutOfRange
  \/ TokenIdOutOfRange = TokenIdOutOfRange
  \/ TokenIdOutOfRange = NegativeTimestamp.
Proof.
  apply (serializeTransfer_error_kinds
           (with_from_token example_tx (From example_tx) 200)).
  vm_compute. reflexivity.
Defined.

(** X17. [serializeTransfer] panics only in the address codec: the
    sender or the receiver has an odd number of characters behind its
    prefix, and the panic is the index error at the end of that text. *)
Theorem serializeTransfer_panic_from_address (tx : Tx) (p : panic)
    (H : serializeTransfer tx = Panic p) :
  exists address hex,
    (address = From tx \/ address = To tx)
    /\ serializeAddress address = Panic p
    /\ (address = ("0x" ++ hex)%string \/ address = ("sync:" ++ hex)%string)
    /\ Nat.Odd (String.length hex)
    /\ p = IndexOutOfRange (len hex) (len hex).
Proof.
  rewrite serializeTransfer_first_failure in H. unfold field_results in H.
  cbn [first_failure serializeAmountPacked serializeFeePacked] in H.
  rewrite serializeNonce_Ok in H.
  destruct (serializeAccountId_cases (AccountId tx)) as [[Ha Ea]|[Ha Ea]];
    rewrite Ea in H; [|discriminate].
  destruct (serializeAddress (From tx)) as [from|e'|q] eqn:Ef; [|discriminate|].
  2:{ injection H as ->.
      destruct (serializeAddress_Panic _ _ Ef) as (hex & Hh & Ho & Hp).
      exists (From tx), hex. tauto. }
  destruct (serializeAddress (To tx)) as [to|e'|q] eqn:Et; [|discriminate|].
  2:{ injection H as ->.
      destruct (serializeAddress_Panic _ _ Et) as (hex & Hh & Ho & Hp).
      exists (To tx), hex. tauto. }
  destruct (serializeTokenId_cases (Token tx)) as [[Hk Ek]|[Hk Ek]];
    rewrite Ek in H; [|discriminate].
  destruct (serializeTimestamp_cases (ValidFrom tx)) as [[Hf Evf]|[Hf Evf]];
    rewrite Evf in H; [|discriminate].
  destruct (serializeTimestamp_cases (ValidUntil tx)) as [[Hu Evu]|[Hu Evu]];
    rewrite Evu in H; discriminate.
Qed.

Lemma serializeTransfer_panic_from_address_witness :
  exists address hex,
    (address = From (with_from_token example_tx "0x1" 0)
     \/ address = To (with_from_token example_tx "0x1" 0))
    /\ serializeAddress address = Panic (IndexOutOfRange 1 1)
    /\ (address = ("0x" ++ hex)%string \/ address = ("sync:" ++ hex)%string)
    /\ Nat.Odd (String.length hex)
    /\ IndexOutOfRange 1 1 = IndexOutOfRange (len hex) (len hex).
Proof.
  apply (serializeTransfer_panic_from_address
           (with_from_token example_tx "0x1" 0)).
  vm_compute. reflexivity.
Defined.

(** X18. Every output of a successful serialization starts with a zero
    byte, the high byte of the account id. *)
Theorem serializeTransfer_first_byte_zero (tx : Tx) (out : list byte)
    (Hid : 0 <= AccountId tx)
    (H : serializeTransfer tx = Ok out) :
  exists rest, out = x00 :: rest.
Proof.
  rewrite serializeTransfer_first_failure in H. unfold field_results in H.
  cbn [first_failure] in H.
  destruct (serializeAccountId_cases (AccountId tx)) as [[Ha Ea]|[Ha Ea]];
    rewrite Ea in H; [|discriminate].
  apply bind_Ok_inv in H as (bs & _ & H). injection H as <-.
  cbn [be_bytes app]. rewrite !Z.shiftr_shiftr by lia.
  rewrite Z.shiftr_div_pow2 by lia. rewrite Z.div_small by lia.
  eexists. reflexivity.
Qed.

Lemma serializeTransfer_first_byte_zero_witness :
  exists rest, example_output = x00 :: rest.
Proof.
  apply (serializeTransfer_first_byte_zero example_tx example_output).
  - cbn. lia.
  - vm_compute. reflexivity.
Defined.

Lemma pair_value_underscore (b : byte) :
  pair_value "_" (hex_digit (Z_of_byte b mod 16)) = Some (Z_of_byte b mod 16).
Proof. destruct b; vm_compute; reflexivity. Qed.

Lemma decode_pairs_underscored (total : Z) (bs : list byte) :
  decode_pairs total (underscored bs)
  = Ok (map (fun b => byte_of_Z (Z_of_byte b mod 16)) bs).
Proof.
  induction bs as [|b bs IH]; [reflexivity|].
  cbn [underscored decode_pairs map].
  rewrite pair_value_underscore, IH. reflexivity.
Qed.

(** X19. Text that is not hex is accepted: twenty pairs of an underscore
    and a hex digit behind [0x] decode to the twenty digit values. *)
Theorem serializeAddress_accepts_underscores (bs : list byte)
    (Hlen : List.length bs = 20%nat) :
  serializeAddress ("0x" ++ underscored bs)
  = Ok (map (fun b => byte_of_Z (Z_of_byte b mod 16)) bs).
Proof.
  unfold serializeAddress. rewrite removeAddressPrefix_0x. cbn [bind].
  rewrite arrayifyAddress_as_pairs, decode_pairs_underscored. cbn [bind].
  rewrite length_map, Hlen. reflexivity.
Qed.

Lemma serializeAddress_accepts_underscores_witness :
  serializeAddress "0x_6_1_c_3_9_7_6_4_8_1_1_7_a_c_2_8_f_d_0_9"
  = Ok (map (fun b => byte_of_Z (Z_of_byte b mod 16)) example_from).
Proof. exact (serializeAddress_accepts_underscores example_from eq_refl). Defined.

(** X20. The two prefixes give the same result: the bytes do not tell
    whether the address was written with [0x] or with [sync:]. *)
Theorem serializeAddress_prefix_blind (hex : string) :
  serializeAddress ("0x" ++ hex) = serializeAddress ("sync:" ++ hex).
Proof.
  unfold serializeAddress.
  now rewrite removeAddressPrefix_0x, removeAddressPrefix_sync.
Qed.

Lemma segment_app (pre x post : list byte) :
  segment (pre ++ x ++ post) (List.length pre) (List.length pre + List.length x)
  = x.
Proof.
  unfold segment.
  rewrite skipn_app, skipn_all, Nat.sub_diag. cbn [skipn app].
  replace (List.length pre + List.length x - List.length pre)%nat
    with (List.length x) by lia.
  rewrite firstn_app, Nat.sub_diag, firstn_all. cbn [firstn]. apply app_nil_r.
Qed.

Lemma segment_of (l pre x post : list byte) (lo hi : nat) :
  l = pre ++ x ++ post ->
  lo = List.length pre -> hi = (lo + List.length x)%nat ->
  segment l lo hi = x.
Proof. intros -> -> ->. apply segment_app. Qed.

Lemma be_value_zero_pad (l : list byte) : be_value (make 4 4 ++ l) = be_value l.
Proof. reflexivity. Qed.

Lemma serializeTransfer_Ok_parts (tx : Tx) (out : list byte) :
  serializeTransfer tx = Ok out ->
  exists from to,
    serializeAddress (From tx) = Ok from
    /\ serializeAddress (To tx) = Ok to
    /\ AccountId tx < 2 ^ 24 /\ Token tx < 128
    /\ out = be_bytes 4 (AccountId tx) ++ from ++ to
             ++ be_bytes 2 (Token tx)
             ++ bytes_of_string (Amount tx) ++ bytes_of_string (Fee tx)
             ++ be_bytes 4 (Nonce tx)
             ++ (make 4 4 ++ be_bytes 4 (uint64 (ValidFrom tx)))
             ++ (make 4 4 ++ be_bytes 4 (uint64 (ValidUntil tx)))
                ++ [].
Proof.
  rewrite serializeTransfer_first_failure. unfold field_results.
  cbn [first_failure serializeAmountPacked serializeFeePacked].
  rewrite serializeNonce_Ok.
  destruct (serializeAccountId_cases (AccountId tx)) as [[Ha ->]|[Ha ->]];
    [|discriminate].
  destruct (serializeAddress (From tx)) as [from|e|p]; [|discriminate..].
  destruct (serializeAddress (To tx)) as [to|e|p]; [|discriminate..].
  destruct (serializeTokenId_cases (Token tx)) as [[Hk ->]|[Hk ->]];
    [|discriminate].
  destruct (serializeTimestamp_cases (ValidFrom tx)) as [[Hf ->]|[Hf ->]];
    [|discriminate].
  destruct (serializeTimestamp_cases (ValidUntil tx)) as [[Hu ->]|[Hu ->]];
    [|discriminate].
  cbn [bind]. intros [= <-]. exists from, to. repeat split; auto.
Qed.

Lemma uint64_mod32 (x : Z) : uint64 x mod 2 ^ 32 = x mod 2 ^ 32.
Proof.
  unfold uint64. change (2 ^ 64) with (2 ^ 32 * 2 ^ 32).
  rewrite Z.rem_mul_r by lia. rewrite Z.mul_comm, Z.mod_add by lia.
  apply Z.mod_mod. lia.
Qed.

(** X21. The fields can be read back from the output: account id and
    token as big-endian numbers at the bytes 0 to 3 and 44 to 45, the
    decoded addresses at 4 to 23 and 24 to 43, the text of amount and fee
    behind them, and nonce and time stamps modulo 2^32 in the last 20
    bytes. *)
Theorem serializeTransfer_fields_read_back (tx : Tx) (out : list byte)
    (Hid : 0 <= AccountId tx) (Htok : 0 <= Token tx)
    (H : serializeTransfer tx = Ok out) :
  let la := String.length (Amount tx) in
  let lf := String.length (Fee tx) in
  be_value (segment out 0 4) = AccountId tx
  /\ serializeAddress (From tx) = Ok (segment out 4 24)
  /\ serializeAddress (To tx) = Ok (segment out 24 44)
  /\ be_value (segment out 44 46) = Token tx
  /\ segment out 46 (46 + la) = bytes_of_string (Amount tx)
  /\ segment out (46 + la) (46 + la + lf) = bytes_of_string (Fee tx)
  /\ be_value (segment out (46 + la + lf) (50 + la + lf))
     = Nonce tx mod 2 ^ 32
  /\ be_value (segment out (50 + la + lf) (58 + la + lf))
     = ValidFrom tx mod 2 ^ 32
  /\ be_value (segment out (58 + la + lf) (66 + la + lf))
     = ValidUntil tx mod 2 ^ 32.
Proof.
  intros la lf.
  destruct (serializeTransfer_Ok_parts tx out H)
    as (from & to & Hf & Ht & Ha & Hk & ->).
  pose proof (serializeAddress_length _ _ Hf) as Lf.
  pose proof (serializeAddress_length _ _ Ht) as Lt.
  pose proof (length_bytes_of_string (Amount tx)) as Lam.
  pose proof (length_bytes_of_string (Fee tx)) as Lfe.
  fold la in Lam. fold lf in Lfe.
  set (a := be_bytes 4 (AccountId tx)).
  set (k := be_bytes 2 (Token tx)).
  set (am := bytes_of_string (Amount tx)) in *.
  set (fe := bytes_of_string (Fee tx)) in *.
  set (n := be_bytes 4 (Nonce tx)).
  set (vf := make 4 4 ++ be_bytes 4 (uint64 (ValidFrom tx))).
  set (vu := make 4 4 ++ be_bytes 4 (uint64 (ValidUntil tx))).
  assert (La : List.length a = 4%nat) by apply length_be_bytes.
  assert (Lk : List.length k = 2%nat) by apply length_be_bytes.
  assert (Ln : List.length n = 4%nat) by apply length_be_bytes.
  assert (Lvf : List.length vf = 8%nat)
    by (unfold vf; rewrite length_app, length_be_bytes; reflexivity).
  assert (Lvu : List.length vu = 8%nat)
    by (unfold vu; rewrite length_app, length_be_bytes; reflexivity).
  repeat split.
  - erewrite (segment_of _ [] a); [| reflexivity | reflexivity | cbn; lia].
    unfold a. rewrite be_value_be_bytes. apply Z.mod_small.
    change (2 ^ (8 * Z.of_nat 4)) with (2 ^ 32). lia.
  - erewrite (segment_of _ a from); [exact Hf | reflexivity | lia | lia].
  - erewrite (segment_of _ (a ++ from) to);
      [exact Ht | rewrite <- !app_assoc; reflexivity
       | rewrite ?length_app; lia..].
  - erewrite (segment_of _ (a ++ from ++ to) k);
      [| rewrite <- !app_assoc; reflexivity | rewrite ?length_app; lia..].
    unfold k. rewrite be_value_be_bytes. apply Z.mod_small.
    change (2 ^ (8 * Z.of_nat 2)) with (2 ^ 16). lia.
  - erewrite (segment_of _ (a ++ from ++ to ++ k) am);
      [reflexivity | rewrite <- !app_assoc; reflexivity
       | rewrite ?length_app; lia..].
  - erewrite (segment_of _ (a ++ from ++ to ++ k ++ am) fe);
      [reflexivity | rewrite <- !app_assoc; reflexivity
       | rewrite ?length_app; lia..].
  - erewrite (segment_of _ (a ++ from ++ to ++ k ++ am ++ fe) n);
      [| rewrite <- !app_assoc; reflexivity | rewrite ?length_app; lia..].
    unfold n. now rewrite be_value_be_bytes.
  - erewrite (segment_of _ (a ++ from ++ to ++ k ++ am ++ fe ++ n) vf);
      [| rewrite <- !app_assoc; reflexivity | rewrite ?length_app; lia..].
    unfold vf. rewrite be_value_zero_pad, be_value_be_bytes.
    apply uint64_mod32.
  - erewrite (segment_of _ (a ++ from ++ to ++ k ++ am ++ fe ++ n ++ vf) vu);
      [| rewrite <- !app_assoc; reflexivity | rewrite ?length_app; lia..].
    unfold vu. rewrite be_value_zero_pad, be_value_be_bytes.
    apply uint64_mod32.
Qed.

Lemma serializeTransfer_fields_read_back_witness :
  let la := String.length (Amount example_tx) in
  let lf := String.length (Fee example_tx) in
  be_value (segment example_output 0 4) = AccountId example_tx
  /\ serializeAddress (From example_tx) = Ok (segment example_output 4 24)
  /\ serializeAddress (To example_tx) = Ok (segment example_output 24 44)
  /\ be_value (segment example_output 44 46) = Token example_tx
  /\ segment example_output 46 (46 + la) = bytes_of_string (Amount example_tx)
  /\ segment example_output (46 + la) (46 + la + lf)
     = bytes_of_string (Fee example_tx)
  /\ be_value (segment example_output (46 + la + lf) (50 + la + lf))
     = Nonce example_tx mod 2 ^ 32
  /\ be_value (segment example_output (50 + la + lf) (58 + la + lf))
     = ValidFrom example_tx mod 2 ^ 32
  /\ be_value (segment example_output (58 + la + lf) (66 + la + lf))
     = ValidUntil example_tx mod 2 ^ 32.
Proof.
  apply (serializeTransfer_fields_read_back example_tx example_output).
  - cbn. lia.
  - cbn. lia.
  - vm_compute. reflexivity.
Defined.
